(** * Dependency-graph traversal utilities (maya_node_graph.py)

    A shallow embedding of the graph-traversal core of
    [src/maya_node_graph.py]: the breadth-first generator
    [traverse_graph], the typed query [find_connected_nodes_by_type],
    the connection extractor [get_all_connections] and the constructor
    of the OpenMaya based [DGIterator].

    The Maya host ([maya.cmds], [maya.api.OpenMaya]) is external to the
    repository; it enters the development as a record of query
    functions.  Python [int] is [Z], [str] is [string], [set[str]] is
    [gset string], a [deque] used as a FIFO queue is a [list] popped at
    its head and extended at its tail. *)

From Stdlib Require Import ZArith Ascii String.
From stdpp Require Import gmap strings list.

Local Open Scope Z_scope.

#[local] Set Warnings "-clear-no-such-hyp".

(** ** Host interface *)

(** [class TraversalDirection(Enum)] *)
Inductive TraversalDirection : Set :=
  | UPSTREAM
  | DOWNSTREAM
  | BOTH.

(** The queries of [maya.cmds] that the module issues.
    [listConnections node src dst] stands for
    [cmds.listConnections(node, source=src, destination=dst)] and
    [listConnections_plugs node] for
    [cmds.listConnections(node, connections=True, plugs=True)]; both
    answer [None] when nothing is connected. *)
Record Host : Type := mkHost {
  objExists : string → bool;
  nodeType : string → string;
  listConnections : string → bool → bool → option (list string);
  listConnections_plugs : string → option (list string);
}.

(** Python's [x or []] on an optional list. *)
Definition or_empty {A : Type} (x : option (list A)) : list A :=
  match x with
  | Some (a :: l) => a :: l
  | Some [] => []
  | None => []
  end.

(** Records written through [LOGGER]. *)
Inductive log_level : Set :=
  | LOG_WARNING
  | LOG_ERROR.

Definition log_entry : Type := log_level * string.

(** ** The traversal loop *)

Module Traverse.

(** The local state of one call: the [visited] set and the [queue]. *)
Record state : Type := mkState {
  visited : gset string;
  queue : list (string * Z);
}.

Section Loop.
Variable host : Host.
Variable direction : TraversalDirection.
Variable max_depth : Z.
Variable node_filter : option (gset string).

(** [direction in (UPSTREAM, BOTH)] and [direction in (DOWNSTREAM, BOTH)] *)
Definition goes_upstream : bool :=
  match direction with UPSTREAM | BOTH => true | DOWNSTREAM => false end.

Definition goes_downstream : bool :=
  match direction with DOWNSTREAM | BOTH => true | UPSTREAM => false end.

(** Lines 173-185: the list [next_nodes] built for [current_node]. *)
Definition next_nodes (current_node : string) : list string :=
  (if goes_upstream
   then or_empty (listConnections host current_node true false)
   else [])
  ++
  (if goes_downstream
   then or_empty (listConnections host current_node false true)
   else []).

(** Lines 187-189: [for next_node in next_nodes: if next_node not in
    visited: queue.append((next_node, depth + 1))]. *)
Definition enqueue_next (seen : gset string) (depth : Z)
    (q : list (string * Z)) (nodes : list string) : list (string * Z) :=
  fold_left
    (λ q next_node,
       if decide (next_node ∈ seen) then q else q ++ [(next_node, depth + 1)])
    nodes q.

(** Lines 161-162: [max_depth >= 0 and depth > max_depth]. *)
Definition too_deep (depth : Z) : bool :=
  (0 <=? max_depth) && (max_depth <? depth).

(** Lines 166-169: the filter is consulted only when it is truthy,
    i.e. neither [None] nor the empty set. *)
Definition filtered_out (current_node : string) : bool :=
  match node_filter with
  | None => false
  | Some types =>
      if decide (types = ∅) then false
      else if decide (nodeType host current_node ∈ types) then false
      else true
  end.

(** One turn of [while queue:].  [None] when the queue is empty (the
    loop exits); otherwise the record yielded in this turn, if any,
    and the state at the next loop test. *)
Definition iteration (st : state) : option (option (string * Z) * state) :=
  match queue st with
  | [] => None
  | (current_node, depth) :: rest =>
      if decide (current_node ∈ visited st) then
        Some (None, mkState (visited st) rest)
      else if too_deep depth then
        Some (None, mkState (visited st) rest)
      else
        let visited' := {[current_node]} ∪ visited st in
        if filtered_out current_node then
          Some (None, mkState visited' rest)
        else
          Some (Some (current_node, depth),
                mkState visited'
                  (enqueue_next visited' depth rest (next_nodes current_node)))
  end.

(** The loop, run for at most [fuel] turns; [None] when the fuel runs
    out before the queue is empty. *)
Fixpoint run (fuel : nat) (st : state) : option (list (string * Z)) :=
  match fuel with
  | O => None
  | S fuel' =>
      match iteration st with
      | None => Some []
      | Some (None, st') => run fuel' st'
      | Some (Some record, st') => cons record <$> run fuel' st'
      end
  end.

(** The states a call passes through, turn by turn. *)
Fixpoint state_after (turns : nat) (st : state) : state :=
  match turns with
  | O => st
  | S turns' =>
      match iteration st with
      | None => st
      | Some (_, st') => state_after turns' st'
      end
  end.

(** Lines 153-154. *)
Definition initial (start_node : string) : state :=
  mkState ∅ [(start_node, 0)].

End Loop.

End Traverse.

(** [traverse_graph]: the error log and the yielded records, in order.
    [None] only when [fuel] turns of the loop do not empty the queue. *)
Definition traverse_graph (host : Host) (fuel : nat) (start_node : string)
    (direction : TraversalDirection) (max_depth : Z)
    (node_filter : option (gset string))
    : option (list log_entry * list (string * Z)) :=
  if objExists host start_node then
    pair [] <$>
      Traverse.run host direction max_depth node_filter fuel
        (Traverse.initial start_node)
  else
    Some ([(LOG_ERROR, "Start node does not exist: " +:+ start_node)], []).

(** [find_connected_nodes_by_type]: the call [traverse_graph(start_node,
    direction)] leaves [max_depth = -1] and [node_filter = None]. *)
Definition find_connected_nodes_by_type (host : Host) (fuel : nat)
    (start_node target_type : string) (direction : TraversalDirection)
    : option (list string) :=
  match traverse_graph host fuel start_node direction (-1) None with
  | None => None
  | Some (_, records) =>
      Some (fold_left
              (λ results record,
                 if decide (nodeType host (fst record) = target_type)
                 then results ++ [fst record]
                 else results)
              records [])
  end.

(** ** The connection extractor *)

(** [@dataclass class ConnectionInfo] *)
Record ConnectionInfo : Type := mkConnectionInfo {
  source_node : string;
  source_attr : string;
  dest_node : string;
  dest_attr : string;
}.

(** Exceptions the modelled code can raise. *)
Inductive py_exception : Set :=
  | IndexError
  | ValueError
  | ResolutionError.

Inductive result (A : Type) : Type :=
  | Ok (a : A)
  | Raise (e : py_exception).

Arguments Ok {A} a.
Arguments Raise {A} e.

Definition bind {A B : Type} (r : result A) (k : A → result B) : result B :=
  match r with
  | Ok a => k a
  | Raise e => Raise e
  end.

Notation "'try' x := r 'in' k" := (bind r (λ x, k))
  (at level 10, x name, r at level 100, k at level 200, only parsing).

(** [a, b = plug.split(".", 1)]: the text before and after the first
    dot; unpacking raises [ValueError] when there is no dot. *)
Fixpoint split_dot (plug : string) : option (string * string) :=
  match plug with
  | EmptyString => None
  | String c rest =>
      if Ascii.eqb c "."%char then Some (EmptyString, rest)
      else
        match split_dot rest with
        | Some (a, b) => Some (String c a, b)
        | None => None
        end
  end.

Definition unpack_plug (plug : string) : result (string * string) :=
  match split_dot plug with
  | Some ab => Ok ab
  | None => Raise ValueError
  end.

(** Lines 106-126: the loop [for i in range(0, len(plugs), 2)] over the
    flat list of plugs, two at a time; [plugs[i + 1]] raises
    [IndexError] on a list of odd length. *)
Fixpoint connections_loop (node : string) (plugs : list string)
    (connections : list ConnectionInfo) : result (list ConnectionInfo) :=
  match plugs with
  | [] => Ok connections
  | [_] => Raise IndexError
  | plug_a :: plug_b :: plugs' =>
      try a := unpack_plug plug_a in
      try b := unpack_plug plug_b in
      let '(node_a, attr_a) := a in
      let '(node_b, attr_b) := b in
      if String.eqb node_a node then
        connections_loop node plugs'
          (connections ++ [mkConnectionInfo node_b attr_b node_a attr_a])
      else
        connections_loop node plugs'
          (connections ++ [mkConnectionInfo node_a attr_a node_b attr_b])
  end.

Definition get_all_connections (host : Host) (node : string)
    : result (list ConnectionInfo) :=
  if objExists host node then
    connections_loop node (or_empty (listConnections_plugs host node)) []
  else Ok [].

(** ** The OpenMaya iterator *)

Module FastPath.

(** Modelled from the spec: the native host interface of section 6,
    which is not part of the repository.  [resolveUnique(name)] "fails
    if zero or multiple matches"; [nativeIterate] and [displayName] are
    the host's graph iterator and node name.  The code reaches
    [resolveUnique] as [MSelectionList.add] followed by
    [getDependNode(0)]. *)
Record NativeHost (MObject : Type) : Type := mkNativeHost {
  matching : string → list MObject;
  nativeIterate : MObject → Z → list MObject;
  displayName : MObject → string;
}.

Arguments matching {MObject} _ _.
Arguments nativeIterate {MObject} _ _ _.
Arguments displayName {MObject} _ _.

Section Iterator.
Context {MObject : Type}.
Variable native : NativeHost MObject.

(** Modelled from the spec: [selection_list.add(name)], failing with
    a [ResolutionError] unless exactly one node matches. *)
Definition MSelectionList_add (selection_list : list MObject)
    (name : string) : result (list MObject) :=
  match matching native name with
  | [obj] => Ok (selection_list ++ [obj])
  | _ => Raise ResolutionError
  end.

Definition getDependNode (selection_list : list MObject) (index : nat)
    : result MObject :=
  match selection_list !! index with
  | Some obj => Ok obj
  | None => Raise IndexError
  end.

(** The object built by [DGIterator.__init__]. *)
Record DGIterator : Type := mkDGIterator { _start_obj : MObject }.

(** Lines 252-254. *)
Definition DGIterator_init (start_node : string) : result DGIterator :=
  try selection_list := MSelectionList_add [] start_node in
  try obj := getDependNode selection_list 0 in
  Ok (mkDGIterator obj).

(** Lines 269-283: walk the native iterator to exhaustion. *)
Definition get_upstream_nodes (self : DGIterator) (traversal_type : Z)
    : list string :=
  fold_left (λ nodes current_node, nodes ++ [displayName native current_node])
    (nativeIterate native (_start_obj self) traversal_type) [].

End Iterator.

End FastPath.

(** ** Scenes given as finite data *)

Module Scene.

Record node : Type := mkNode {
  name : string;
  type : string;
  sources : list string;
  destinations : list string;
  plugs : list string;
}.

Fixpoint find (scene : list node) (n : string) : option node :=
  match scene with
  | [] => None
  | x :: scene' => if String.eqb (name x) n then Some x else find scene' n
  end.

(** Maya answers [None], not an empty list, when nothing is connected. *)
Definition answer (l : list string) : option (list string) :=
  match l with
  | [] => None
  | _ => Some l
  end.

Definition host (scene : list node) : Host := {|
  objExists n := bool_decide (is_Some (find scene n));
  nodeType n := from_option type EmptyString (find scene n);
  listConnections n src dst :=
    match find scene n with
    | None => None
    | Some x =>
        answer ((if src then sources x else []) ++
                (if dst then destinations x else []))
    end;
  listConnections_plugs n :=
    match find scene n with
    | None => None
    | Some x => answer (plugs x)
    end;
|}.

End Scene.

(** The three-node cycle A -> B -> C -> A. *)
Definition cycle_scene : list Scene.node :=
  [ Scene.mkNode "A" "lambert" ["C"] ["B"] ["A.o"; "B.i"; "A.i"; "C.o"];
    Scene.mkNode "B" "file" ["A"] ["C"] ["B.o"; "C.i"; "B.i"; "A.o"];
    Scene.mkNode "C" "lambert" ["B"] ["A"] ["C.o"; "A.i"; "C.i"; "B.o"] ].

(** A texture wired twice into a shader: two links file1 -> lambert1. *)
Definition shader_scene : list Scene.node :=
  [ Scene.mkNode "file1" "file" [] ["lambert1"; "lambert1"]
      ["file1.outColor"; "lambert1.color";
       "file1.outTransparency"; "lambert1.transparency"];
    Scene.mkNode "lambert1" "lambert" ["file1"; "file1"] ["sg1"]
      ["lambert1.color"; "file1.outColor";
       "lambert1.transparency"; "file1.outTransparency";
       "lambert1.outColor"; "sg1.surfaceShader"];
    Scene.mkNode "sg1" "shadingEngine" ["lambert1"] []
      ["sg1.surfaceShader"; "lambert1.outColor"] ].

(** A single link ramp1.outColor -> blinn1.color. *)
Definition link_scene : list Scene.node :=
  [ Scene.mkNode "ramp1" "ramp" [] ["blinn1"] ["ramp1.outColor"; "blinn1.color"];
    Scene.mkNode "blinn1" "blinn" ["ramp1"] [] ["blinn1.color"; "ramp1.outColor"] ].

(** A native host over the names of a scene (DAG-style: a short name
    may match several nodes). *)
Definition names_host (known : list string) : FastPath.NativeHost string := {|
  FastPath.matching n := filter (λ k, k = n) known;
  FastPath.nativeIterate _ _ := [];
  FastPath.displayName obj := obj;
|}.

(** ** The loop as the specification words it *)

(** The specification has the engine deduplicate the neighbour
    collection before it enqueues.  This second loop does so, and is
    otherwise the loop of [Traverse]; it is what [traverse_graph] is
    compared with. *)
Module Deduplicating.

(** The first occurrence of every name that is not in [listed]. *)
Fixpoint dedup_from (listed : gset string) (nodes : list string)
    : list string :=
  match nodes with
  | [] => []
  | n :: nodes' =>
      if decide (n ∈ listed) then dedup_from listed nodes'
      else n :: dedup_from ({[n]} ∪ listed) nodes'
  end.

Definition dedup (nodes : list string) : list string := dedup_from ∅ nodes.

Section Loop.
Variable host : Host.
Variable direction : TraversalDirection.
Variable max_depth : Z.
Variable node_filter : option (gset string).

Definition iteration (st : Traverse.state)
    : option (option (string * Z) * Traverse.state) :=
  match Traverse.queue st with
  | [] => None
  | (current_node, depth) :: rest =>
      if decide (current_node ∈ Traverse.visited st) then
        Some (None, Traverse.mkState (Traverse.visited st) rest)
      else if Traverse.too_deep max_depth depth then
        Some (None, Traverse.mkState (Traverse.visited st) rest)
      else
        let visited' := {[current_node]} ∪ Traverse.visited st in
        if Traverse.filtered_out host node_filter current_node then
          Some (None, Traverse.mkState visited' rest)
        else
          Some (Some (current_node, depth),
                Traverse.mkState visited'
                  (Traverse.enqueue_next visited' depth rest
                     (dedup (Traverse.next_nodes host direction current_node))))
  end.

Fixpoint run (fuel : nat) (st : Traverse.state)
    : option (list (string * Z)) :=
  match fuel with
  | O => None
  | S fuel' =>
      match iteration st with
      | None => Some []
      | Some (None, st') => run fuel' st'
      | Some (Some record, st') => cons record <$> run fuel' st'
      end
  end.

End Loop.

Definition traverse_graph (host : Host) (fuel : nat) (start_node : string)
    (direction : TraversalDirection) (max_depth : Z)
    (node_filter : option (gset string))
    : option (list log_entry * list (string * Z)) :=
  if objExists host start_node then
    pair [] <$>
      run host direction max_depth node_filter fuel
        (Traverse.initial start_node)
  else
    Some ([(LOG_ERROR, "Start node does not exist: " +:+ start_node)], []).

End Deduplicating.

(** The records one turn appends to the queue name no node twice. *)
Definition expansion_deduplicates (host : Host)
    (direction : TraversalDirection) (max_depth : Z)
    (node_filter : option (gset string)) : Prop :=
  ∀ st y st' new,
    Traverse.iteration host direction max_depth node_filter st
    = Some (y, st') →
    Traverse.queue st' = tail (Traverse.queue st) ++ new →
    NoDup new.*1.

(** A queued record that the loop will drop when it dequeues it. *)
Definition dead (max_depth : Z) (seen : gset string) (r : string * Z) : Prop :=
  r.1 ∈ seen ∨ Traverse.too_deep max_depth r.2 = true.

(** [thinned max_depth seen earlier q q']: the queue [q'] is [q] without
    some records that are dead, or that repeat a record of [earlier] or
    a record kept before them. *)
Inductive thinned (max_depth : Z) (seen : gset string) :
    list (string * Z) → list (string * Z) → list (string * Z) → Prop :=
  | thinned_nil earlier : thinned max_depth seen earlier [] []
  | thinned_keep earlier r q q' :
      thinned max_depth seen (r :: earlier) q q' →
      thinned max_depth seen earlier (r :: q) (r :: q')
  | thinned_drop earlier r q q' :
      dead max_depth seen r ∨ r ∈ earlier →
      thinned max_depth seen earlier q q' →
      thinned max_depth seen earlier (r :: q) q'.

(** ** Reachability and termination measures *)

Section GraphDefs.
Variable host : Host.
Variable direction : TraversalDirection.
Variable max_depth : Z.
Variable node_filter : option (gset string).

(** [b] is listed among the neighbours the loop computes for [a]. *)
Definition edge (a b : string) : Prop :=
  b ∈ Traverse.next_nodes host direction a.

(** [b] is reached from [a] along neighbour lists. *)
Definition reachable : string → string → Prop := rtc edge.

(** An edge out of a node that the filter lets through. *)
Definition open_edge (a b : string) : Prop :=
  Traverse.filtered_out host node_filter a = false ∧ edge a b.

(** [n] is reached from [start] along nodes that all pass the filter,
    [n] included. *)
Definition reachable_unfiltered (start n : string) : Prop :=
  rtc open_edge start n ∧ Traverse.filtered_out host node_filter n = false.

(** [n] is reached from [start] along nodes whose type is in [types],
    [start] and [n] included. *)
Definition reachable_within (types : gset string) (start n : string) : Prop :=
  rtc (λ a b, nodeType host a ∈ types ∧ edge a b) start n
  ∧ nodeType host n ∈ types.

(** [n] is reached from [a] along nodes outside [seen], both ends
    included. *)
Inductive fresh_path (seen : gset string) : string → string → Prop :=
  | fresh_here a : a ∉ seen → fresh_path seen a a
  | fresh_step a b n :
      a ∉ seen → edge a b → fresh_path seen b n → fresh_path seen a n.

(** A finite set of nodes closed under the neighbour lists. *)
Definition closed_universe (universe : list string) : Prop :=
  ∀ a b, a ∈ universe → edge a b → b ∈ universe.

(** The same, as a test that evaluates on a given list. *)
Definition closed_universeb (universe : list string) : bool :=
  forallb
    (λ a, forallb (λ b, bool_decide (b ∈ universe))
            (Traverse.next_nodes host direction a))
    universe.

(** What the nodes of [universe] outside [seen] can still cost: one
    turn to visit each, and one per neighbour it may enqueue. *)
Fixpoint pending (seen : gset string) (universe : list string) : nat :=
  match universe with
  | [] => O
  | a :: universe' =>
      if decide (a ∈ seen) then pending seen universe'
      else (S (length (Traverse.next_nodes host direction a))
            + pending seen universe')%nat
  end.

Definition measure (universe : list string) (st : Traverse.state) : nat :=
  (length (Traverse.queue st) + pending (Traverse.visited st) universe)%nat.

(** Turns that suffice on a universe: the measure of the initial state,
    and one more to see the empty queue. *)
Definition enough_fuel (universe : list string) : nat :=
  S (S (pending ∅ universe)).

(** The four ways a turn can go. *)
Inductive turn (st : Traverse.state) :
    option (string * Z) → Traverse.state → Prop :=
  | turn_seen n d rest :
      Traverse.queue st = (n, d) :: rest → n ∈ Traverse.visited st →
      turn st None (Traverse.mkState (Traverse.visited st) rest)
  | turn_deep n d rest :
      Traverse.queue st = (n, d) :: rest → n ∉ Traverse.visited st →
      Traverse.too_deep max_depth d = true →
      turn st None (Traverse.mkState (Traverse.visited st) rest)
  | turn_pruned n d rest :
      Traverse.queue st = (n, d) :: rest → n ∉ Traverse.visited st →
      Traverse.too_deep max_depth d = false → Traverse.filtered_out host node_filter n = true →
      turn st None (Traverse.mkState ({[n]} ∪ Traverse.visited st) rest)
  | turn_yield n d rest :
      Traverse.queue st = (n, d) :: rest → n ∉ Traverse.visited st →
      Traverse.too_deep max_depth d = false → Traverse.filtered_out host node_filter n = false →
      turn st (Some (n, d))
        (Traverse.mkState ({[n]} ∪ Traverse.visited st)
           (rest ++ ((λ m, (m, d + 1)) <$>
              filter (λ m, m ∉ {[n]} ∪ Traverse.visited st)
                (Traverse.next_nodes host direction n)))).

End GraphDefs.

(** ** The other queries of the module *)

(** [find_texture_nodes] *)
Definition find_texture_nodes (host : Host) (fuel : nat) (shader : string)
    : option (list string) :=
  find_connected_nodes_by_type host fuel shader "file" UPSTREAM.

(** [get_shading_network]: the dictionary from node type to the nodes of
    that type, filled along [traverse_graph(shader, UPSTREAM,
    max_depth=20)]. *)
Definition network_add (host : Host) (network : gmap string (list string))
    (node : string) : gmap string (list string) :=
  let node_type := nodeType host node in
  let network :=
    match network !! node_type with
    | None => <[node_type := []]> network
    | Some _ => network
    end in
  alter (λ nodes, nodes ++ [node]) node_type network.

Definition get_shading_network (host : Host) (fuel : nat) (shader : string)
    : option (gmap string (list string)) :=
  match traverse_graph host fuel shader UPSTREAM 20 None with
  | None => None
  | Some (_, records) =>
      Some (fold_left (λ network record, network_add host network (fst record))
              records ∅)
  end.

(** Python's [s * n] on a string: empty for [n <= 0]. *)
Definition py_str_mul (s : string) (n : Z) : string :=
  Nat.iter (Z.to_nat n) (String.append s) EmptyString.

(** The line [print_node_tree] prints for one record. *)
Definition tree_line (host : Host) (record : string * Z) : string :=
  let '(node, depth) := record in
  let indent := py_str_mul "  " depth in
  let node_type := nodeType host node in
  indent +:+ "├── " +:+ node +:+ " (" +:+ node_type +:+ ")".

(** [print_node_tree]: the lines written to the standard output. *)
Definition print_node_tree (host : Host) (fuel : nat) (start_node : string)
    (direction : TraversalDirection) (max_depth : Z)
    : option (list string) :=
  match traverse_graph host fuel start_node direction max_depth None with
  | None => None
  | Some (_, records) =>
      Some (fold_left (λ printed record, printed ++ [tree_line host record])
              records [])
  end.

(** [@dataclass class NodeInfo] *)
Record NodeInfo : Type := mkNodeInfo {
  name : string;
  node_type : string;
  is_referenced : bool;
  namespace : string;
  connections_in : list string;
  connections_out : list string;
}.

(** [":" in node] *)
Fixpoint has_colon (s : string) : bool :=
  match s with
  | EmptyString => false
  | String c rest => Ascii.eqb c ":"%char || has_colon rest
  end.

(** [s.rsplit(":", 1)] when it splits: the text before and after the
    last colon. *)
Fixpoint rsplit_colon (s : string) : option (string * string) :=
  match s with
  | EmptyString => None
  | String c rest =>
      match rsplit_colon rest with
      | Some (a, b) => Some (String c a, b)
      | None => if Ascii.eqb c ":"%char then Some (EmptyString, rest) else None
      end
  end.

(** [s.rsplit(":", 1)[0]]: the whole string when there is no colon. *)
Definition rsplit_colon_0 (s : string) : string :=
  match rsplit_colon s with
  | Some (a, _) => a
  | None => s
  end.

(** [list(set(nodes))]: the order of the result is not fixed by Python;
    only facts that hold for every order are proved of it. *)
Definition list_set (nodes : list string) : list string :=
  elements (list_to_set nodes : gset string).

(** [get_node_info]; [referenceQuery node] stands for
    [cmds.referenceQuery(node, isNodeReferenced=True)]. *)
Definition get_node_info (host : Host) (referenceQuery : string → bool)
    (node : string) : list log_entry * option NodeInfo :=
  if objExists host node then
    let node_type := nodeType host node in
    let is_referenced := referenceQuery node in
    let namespace :=
      if has_colon node then rsplit_colon_0 node else EmptyString in
    let connections_in := or_empty (listConnections host node true false) in
    let connections_out := or_empty (listConnections host node false true) in
    ([], Some (mkNodeInfo node node_type is_referenced namespace
                 (list_set connections_in) (list_set connections_out)))
  else
    ([(LOG_WARNING, "Node does not exist: " +:+ node)], None).

(** [get_mesh_shaders].  [listRelatives_shapes mesh] stands for
    [cmds.listRelatives(mesh, shapes=True, fullPath=True)] and
    [listConnections_type n t] for [cmds.listConnections(n, type=t)];
    [cmds.listConnections(plug)] has [source] and [destination] at
    their default [True]. *)
Definition get_mesh_shaders (host : Host)
    (listRelatives_shapes : string → option (list string))
    (listConnections_type : string → string → option (list string))
    (mesh : string) : list string :=
  let shapes := or_empty (listRelatives_shapes mesh) in
  let shaders :=
    fold_left
      (λ shaders shape,
         let shading_engines :=
           or_empty (listConnections_type shape "shadingEngine") in
         fold_left
           (λ shaders sg,
              let surface_shader :=
                or_empty (listConnections host (sg +:+ ".surfaceShader")
                            true true) in
              shaders ++ surface_shader)
           shading_engines shaders)
      shapes [] in
  list_set shaders.

(** ["." in s] *)
Fixpoint has_dot (s : string) : bool :=
  match s with
  | EmptyString => false
  | String c rest => Ascii.eqb c "."%char || has_dot rest
  end.

(** ** Layers and walks *)

(** A queue in breadth-first layers: records of depth [d0] followed by
    records of depth [d0 + 1]. *)
Definition layered (d0 : Z) (q : list (string * Z)) : Prop :=
  ∃ q1 q2, q = q1 ++ q2
           ∧ Forall (λ r, r.2 = d0) q1 ∧ Forall (λ r, r.2 = d0 + 1) q2.

(** Depths that never decrease along a list of records. *)
Fixpoint depths_ascend (floor : Z) (records : list (string * Z)) : Prop :=
  match records with
  | [] => True
  | r :: records' => floor ≤ r.2 ∧ depths_ascend r.2 records'
  end.

(** [open_walk start k n]: [k] neighbour steps lead from [start] to [n],
    each step out of a node that passes the filter. *)
Inductive open_walk (host : Host) (direction : TraversalDirection)
    (node_filter : option (gset string)) (start : string) :
    nat → string → Prop :=
  | walk_start : open_walk host direction node_filter start O start
  | walk_step k m n :
      open_walk host direction node_filter start k m →
      open_edge host direction node_filter m n →
      open_walk host direction node_filter start (S k) n.

(** A mesh with two shapes that share a shader. *)
Definition mesh_shapes (mesh : string) : option (list string) :=
  if String.eqb mesh "pCube1" then Some ["|pCube1|shapeA"; "|pCube1|shapeB"]
  else None.

Definition mesh_engines (shape type : string) : option (list string) :=
  if String.eqb type "shadingEngine" then
    if String.eqb shape "|pCube1|shapeA" then Some ["sg1"]
    else if String.eqb shape "|pCube1|shapeB" then Some ["sg1"; "sg2"]
    else None
  else None.

Definition mesh_host : Host := {|
  objExists _ := true;
  nodeType _ := "lambert";
  listConnections n _ _ :=
    if String.eqb n "sg1.surfaceShader" then Some ["lambert1"]
    else if String.eqb n "sg2.surfaceShader" then Some ["blinn1"]
    else None;
  listConnections_plugs _ := None;
|}.

(** ** The graph of the host *)

(** [b] is in the list the host answers for [a] to
    [cmds.listConnections(a, source=src, destination=dst)]. *)
Definition host_lists (host : Host) (a : string) (src dst : bool)
    (b : string) : Prop :=
  ∃ nodes, listConnections host a src dst = Some nodes ∧ b ∈ nodes.

(** One step in the graph of the host, read off its connection lists
    and not off the loop: upstream to a source of [a], downstream to a
    destination of [a], or either. *)
Definition connected (host : Host) (direction : TraversalDirection)
    (a b : string) : Prop :=
  match direction with
  | UPSTREAM => host_lists host a true false b
  | DOWNSTREAM => host_lists host a false true b
  | BOTH => host_lists host a true false b ∨ host_lists host a false true b
  end.

(** [n] is reached from [a] in the graph of the host. *)
Definition connected_from (host : Host) (direction : TraversalDirection)
    : string → string → Prop :=
  rtc (connected host direction).

(** A finite set of nodes closed under the steps of the host's graph. *)
Definition host_closed (host : Host) (direction : TraversalDirection)
    (universe : list string) : Prop :=
  ∀ a b, a ∈ universe → connected host direction a b → b ∈ universe.

(** * Properties *)

(** ** The loop body *)

Section LoopFacts.
Variable host : Host.
Variable direction : TraversalDirection.
Variable max_depth : Z.
Variable node_filter : option (gset string).

Local Abbreviation next_nodes := (Traverse.next_nodes host direction).
Local Abbreviation enqueue_next := Traverse.enqueue_next.
Local Abbreviation too_deep := (Traverse.too_deep max_depth).
Local Abbreviation filtered_out := (Traverse.filtered_out host node_filter).
Local Abbreviation iteration := (Traverse.iteration host direction max_depth node_filter).
Local Abbreviation run := (Traverse.run host direction max_depth node_filter).
Local Abbreviation state_after :=
  (Traverse.state_after host direction max_depth node_filter).
Local Abbreviation turn := (turn host direction max_depth node_filter).

Lemma enqueue_next_app seen depth q nodes :
  enqueue_next seen depth q nodes
  = q ++ ((λ n, (n, depth + 1)) <$> filter (λ n, n ∉ seen) nodes).
Proof.
  unfold Traverse.enqueue_next. revert q.
  induction nodes as [|n nodes IH]; intros q; simpl.
  - by rewrite app_nil_r.
  - rewrite IH. rewrite filter_cons. destruct (decide (n ∈ seen)).
    + rewrite decide_False by tauto. done.
    + rewrite decide_True by done. rewrite fmap_cons, <- app_assoc. done.
Qed.

Lemma iteration_empty st :
  Traverse.queue st = [] → iteration st = None.
Proof. unfold Traverse.iteration. by intros ->. Qed.

Lemma iteration_seen st n d rest :
  Traverse.queue st = (n, d) :: rest → n ∈ Traverse.visited st →
  iteration st = Some (None, Traverse.mkState (Traverse.visited st) rest).
Proof.
  unfold Traverse.iteration. intros -> Hin. by rewrite decide_True.
Qed.

Lemma iteration_deep st n d rest :
  Traverse.queue st = (n, d) :: rest → n ∉ Traverse.visited st →
  too_deep d = true →
  iteration st = Some (None, Traverse.mkState (Traverse.visited st) rest).
Proof.
  unfold Traverse.iteration. intros -> Hin Hd.
  rewrite decide_False by done. by rewrite Hd.
Qed.

Lemma iteration_pruned st n d rest :
  Traverse.queue st = (n, d) :: rest → n ∉ Traverse.visited st →
  too_deep d = false → filtered_out n = true →
  iteration st
  = Some (None, Traverse.mkState ({[n]} ∪ Traverse.visited st) rest).
Proof.
  unfold Traverse.iteration. intros -> Hin Hd Hf.
  rewrite decide_False by done. by rewrite Hd, Hf.
Qed.

Lemma iteration_yield st n d rest :
  Traverse.queue st = (n, d) :: rest → n ∉ Traverse.visited st →
  too_deep d = false → filtered_out n = false →
  iteration st
  = Some (Some (n, d),
          Traverse.mkState ({[n]} ∪ Traverse.visited st)
            (rest ++ ((λ m, (m, d + 1)) <$>
               filter (λ m, m ∉ {[n]} ∪ Traverse.visited st) (next_nodes n)))).
Proof.
  unfold Traverse.iteration. intros -> Hin Hd Hf.
  rewrite decide_False by done. rewrite Hd, Hf. simpl.
  by rewrite enqueue_next_app.
Qed.

Lemma iteration_turn st y st' :
  iteration st = Some (y, st') → turn st y st'.
Proof.
  intros Hit. destruct (Traverse.queue st) as [|[n d] rest] eqn:Hq.
  - by rewrite iteration_empty in Hit.
  - destruct (decide (n ∈ Traverse.visited st)) as [Hin|Hin].
    { rewrite (iteration_seen _ _ _ _ Hq Hin) in Hit.
      simplify_eq. by eapply turn_seen. }
    destruct (too_deep d) eqn:Hd.
    { rewrite (iteration_deep _ _ _ _ Hq Hin Hd) in Hit.
      simplify_eq. by eapply turn_deep. }
    destruct (filtered_out n) eqn:Hf.
    { rewrite (iteration_pruned _ _ _ _ Hq Hin Hd Hf) in Hit.
      simplify_eq. by eapply turn_pruned. }
    rewrite (iteration_yield _ _ _ _ Hq Hin Hd Hf) in Hit.
    simplify_eq. by eapply turn_yield.
Qed.

Lemma iteration_nonempty st :
  Traverse.queue st ≠ [] → is_Some (iteration st).
Proof.
  intros Hq. unfold Traverse.iteration.
  destruct (Traverse.queue st) as [|[n d] rest]; [done|].
  repeat case_match; eauto.
Qed.

(** *** Fuel *)

Lemma run_more fuel fuel' st out :
  run fuel st = Some out → (fuel ≤ fuel')%nat → run fuel' st = Some out.
Proof.
  revert fuel' st out. induction fuel as [|fuel IH]; intros fuel' st out.
  - done.
  - intros Hrun Hle. destruct fuel' as [|fuel']; [lia|].
    simpl in *. destruct (iteration st) as [[[r|] st']|]; [| |done].
    + destruct (run fuel st') as [out'|] eqn:Hr; [|done].
      rewrite (IH fuel' st' out' Hr) by lia. done.
    + apply IH; [done|lia].
Qed.

Lemma run_agree fuel1 fuel2 st out1 out2 :
  run fuel1 st = Some out1 → run fuel2 st = Some out2 → out1 = out2.
Proof.
  intros H1 H2.
  apply (run_more _ (fuel1 `max` fuel2)%nat) in H1; [|lia].
  apply (run_more _ (fuel1 `max` fuel2)%nat) in H2; [|lia].
  congruence.
Qed.

(** An invariant of the state that every yielded record inherits. *)
Lemma run_invariant (Inv : Traverse.state → Prop) (P : string * Z → Prop) :
  (∀ st y st', Inv st → turn st y st' →
     Inv st' ∧ ∀ r, y = Some r → P r) →
  ∀ fuel st out, Inv st → run fuel st = Some out → Forall P out.
Proof.
  intros Hstep. induction fuel as [|fuel IH]; intros st out HI Hrun; [done|].
  simpl in Hrun. destruct (iteration st) as [[y st']|] eqn:Hit.
  - destruct (Hstep st y st' HI (iteration_turn _ _ _ Hit)) as [HI' Hy].
    destruct y as [r|].
    + destruct (run fuel st') as [out'|] eqn:Hr; [|done].
      simplify_eq/=. constructor; eauto.
    + eauto.
  - by simplify_eq.
Qed.

End LoopFacts.

(** ** Runs of the loop *)

Section RunFacts.
Variable host : Host.
Variable direction : TraversalDirection.
Variable max_depth : Z.
Variable node_filter : option (gset string).

Local Abbreviation next_nodes := (Traverse.next_nodes host direction).
Local Abbreviation too_deep := (Traverse.too_deep max_depth).
Local Abbreviation filtered_out := (Traverse.filtered_out host node_filter).
Local Abbreviation iteration :=
  (Traverse.iteration host direction max_depth node_filter).
Local Abbreviation run := (Traverse.run host direction max_depth node_filter).
Local Abbreviation turn := (turn host direction max_depth node_filter).
Local Abbreviation edge := (edge host direction).
Local Abbreviation open_edge := (open_edge host direction node_filter).
Local Abbreviation fresh_path := (fresh_path host direction).
Local Abbreviation pending := (pending host direction).

(** Unfolding one turn of [run]. *)
Lemma run_turn fuel st out :
  run (S fuel) st = Some out →
  (Traverse.queue st = [] ∧ out = []) ∨
  ∃ y st' out', turn st y st' ∧ run fuel st' = Some out' ∧
    out = match y with Some r => r :: out' | None => out' end.
Proof.
  simpl. destruct (iteration st) as [[y st']|] eqn:Hit.
  - intros Hrun. right. apply iteration_turn in Hit.
    destruct y as [r|].
    + destruct (run fuel st') as [out'|] eqn:Hr; [|done].
      simplify_eq/=. by exists (Some r), st', out'.
    + by exists None, st', out.
  - intros ?. simplify_eq. left. split; [|done].
    destruct (Traverse.queue st) eqn:Hq; [done|].
    destruct (iteration_nonempty host direction max_depth node_filter st)
      as [? ?]; [by rewrite Hq | congruence].
Qed.

(** The visited set only grows. *)
Lemma turn_visited_mono st y st' :
  turn st y st' → Traverse.visited st ⊆ Traverse.visited st'.
Proof. destruct 1; simpl; set_solver. Qed.

(** No node is yielded twice, and none that was already visited. *)
Lemma run_nodup fuel st out :
  run fuel st = Some out →
  NoDup out.*1 ∧ ∀ n, n ∈ out.*1 → n ∉ Traverse.visited st.
Proof.
  revert st out. induction fuel as [|fuel IH]; intros st out Hrun; [done|].
  apply run_turn in Hrun as [[_ ->]|(y & st' & out' & Hturn & Hrun & ->)].
  { split; [constructor | set_solver]. }
  destruct (IH _ _ Hrun) as [Hnd Hfresh].
  destruct Hturn; simpl in *; try (split; [done | set_solver]).
  split.
  - constructor; [|done]. intros Hin. apply Hfresh in Hin. set_solver.
  - intros m [->|Hin]%elem_of_cons; [done|].
    apply Hfresh in Hin. set_solver.
Qed.

(** Every yielded node passes the filter and is reached from the start
    through nodes that pass it. *)
Lemma run_sound fuel start st out :
  (∀ q d, (q, d) ∈ Traverse.queue st → rtc open_edge start q) →
  run fuel st = Some out →
  Forall (λ r, reachable_unfiltered host direction node_filter start r.1) out.
Proof.
  intros Hq Hrun.
  eapply (run_invariant host direction max_depth node_filter
            (λ st, ∀ q d, (q, d) ∈ Traverse.queue st → rtc open_edge start q));
    [|exact Hq|exact Hrun].
  clear. intros st y st' Hinv Hturn.
  destruct Hturn as [n d rest Hqu|n d rest Hqu|n d rest Hqu|n d rest Hqu ? ? Hf];
    simpl; rewrite Hqu in Hinv.
  1-3: split; [|done]; intros q' d' Hin; apply (Hinv q' d'); set_solver.
  split.
  - intros q' d' [Hin|Hin]%elem_of_app.
    + apply (Hinv q' d'). set_solver.
    + apply list_elem_of_fmap in Hin as (m & [= -> ->] & Hm).
      apply list_elem_of_filter in Hm as [_ Hm].
      eapply rtc_r; [apply (Hinv n d); set_solver|]. by split.
  - intros r [= <-]. split; [|done]. apply (Hinv n d). set_solver.
Qed.

(** A yielded record is no deeper than a non-negative [max_depth]. *)
Lemma run_depth fuel st out :
  run fuel st = Some out →
  Forall (λ r, too_deep r.2 = false) out.
Proof.
  apply (run_invariant host direction max_depth node_filter (λ _, True));
    [|done].
  intros ? ? ? _ Hturn. split; [done|]. intros r ->.
  by inversion Hturn; subst.
Qed.

(** *** Termination on a closed universe *)

Lemma pending_mono seen seen' universe :
  seen ⊆ seen' → (pending seen' universe ≤ pending seen universe)%nat.
Proof.
  intros Hsub. induction universe as [|a universe IH]; simpl; [done|].
  destruct (decide (a ∈ seen)) as [Hin|Hin].
  - rewrite decide_True by set_solver. done.
  - destruct (decide (a ∈ seen')); lia.
Qed.

Lemma pending_visit seen universe n :
  n ∈ universe → n ∉ seen →
  (pending ({[n]} ∪ seen) universe + S (length (next_nodes n))
   ≤ pending seen universe)%nat.
Proof.
  intros Hin Hfresh. induction universe as [|a universe IH]; simpl.
  { by apply not_elem_of_nil in Hin. }
  destruct (decide (a = n)) as [->|Hne].
  - rewrite decide_True by set_solver. rewrite decide_False by done.
    assert (seen ⊆ {[n]} ∪ seen) as Hsub by set_solver.
    pose proof (pending_mono seen ({[n]} ∪ seen) universe Hsub). lia.
  - assert (n ∈ universe) as Hin' by set_solver.
    specialize (IH Hin').
    destruct (decide (a ∈ seen)) as [Ha|Ha].
    + rewrite decide_True by set_solver. done.
    + rewrite decide_False by set_solver. lia.
Qed.

Lemma run_terminates universe fuel st :
  closed_universe host direction universe →
  (∀ q d, (q, d) ∈ Traverse.queue st → q ∈ universe) →
  (measure host direction universe st < fuel)%nat →
  is_Some (run fuel st).
Proof.
  intros Hclosed. revert st.
  induction fuel as [|fuel IH]; intros st Hq Hm; [lia|].
  simpl. destruct (iteration st) as [[y st']|] eqn:Hit; [|by eexists].
  apply iteration_turn in Hit.
  assert (is_Some (run fuel st')) as [out' Hout'].
  { apply IH.
    - destruct Hit as [n d rest Hqu|n d rest Hqu|n d rest Hqu|n d rest Hqu];
        simpl; rewrite Hqu in Hq.
      1-3: intros q' d' Hin; apply (Hq q' d'); set_solver.
      intros q' d' [Hin|Hin]%elem_of_app.
      + apply (Hq q' d'). set_solver.
      + apply list_elem_of_fmap in Hin as (m & [= -> ->] & Hin).
        apply list_elem_of_filter in Hin as [_ Hin].
        apply (Hclosed n); [|done]. apply (Hq n d). set_solver.
    - unfold measure in *.
      destruct Hit as [n d rest Hqu|n d rest Hqu|n d rest Hqu Hn|n d rest Hqu Hn];
        simpl; rewrite Hqu in Hm, Hq; simpl in Hm.
      1-2: lia.
      + assert (n ∈ universe) as Hu by (apply (Hq n d); set_solver).
        pose proof (pending_visit (Traverse.visited st) universe n Hu Hn).
        lia.
      + assert (n ∈ universe) as Hu by (apply (Hq n d); set_solver).
        pose proof (pending_visit (Traverse.visited st) universe n Hu Hn).
        rewrite length_app, length_fmap.
        pose proof (length_filter
          (λ m, m ∉ {[n]} ∪ Traverse.visited st) (next_nodes n)).
        lia. }
  rewrite Hout'. destruct y; by eexists.
Qed.

End RunFacts.

(** ** Unfiltered, unbounded runs reach everything *)

Section FreshPaths.
Variable host : Host.
Variable direction : TraversalDirection.

Local Abbreviation edge := (edge host direction).
Local Abbreviation fresh_path := (fresh_path host direction).

Lemma fresh_path_head seen a n : fresh_path seen a n → a ∉ seen.
Proof. by destruct 1. Qed.

(** A path outside [seen] either also avoids [c], or ends in [c], or
    has a last visit of [c] followed by a path that avoids it. *)
Lemma fresh_path_split seen c a n :
  fresh_path seen a n →
  fresh_path ({[c]} ∪ seen) a n ∨ n = c ∨
  ∃ m, edge c m ∧ fresh_path ({[c]} ∪ seen) m n.
Proof.
  induction 1 as [a Ha|a b n Ha Hab Hbn IH].
  - destruct (decide (a = c)) as [->|Hne]; [by right; left|].
    left. constructor. set_solver.
  - destruct IH as [IH|[->|IH]]; [|by right; left|by right; right].
    destruct (decide (a = c)) as [->|Hne].
    + right. right. by exists b.
    + left. eapply fresh_step; [set_solver|done..].
Qed.

Lemma reachable_fresh a n : reachable host direction a n → fresh_path ∅ a n.
Proof.
  induction 1 as [a|a b n Hab _ IH].
  - constructor. set_solver.
  - eapply fresh_step; [set_solver|done..].
Qed.

End FreshPaths.

Section Complete.
Variable host : Host.
Variable direction : TraversalDirection.
Variable max_depth : Z.
Hypothesis unbounded : max_depth < 0.

Local Abbreviation run := (Traverse.run host direction max_depth None).
Local Abbreviation edge := (edge host direction).
Local Abbreviation fresh_path := (fresh_path host direction).

Lemma too_deep_unbounded depth : Traverse.too_deep max_depth depth = false.
Proof. unfold Traverse.too_deep. apply andb_false_iff. left. lia. Qed.

Lemma run_complete fuel st out :
  run fuel st = Some out →
  ∀ q n, q ∈ (Traverse.queue st).*1 →
    fresh_path (Traverse.visited st) q n → n ∈ out.*1.
Proof.
  revert st out. induction fuel as [|fuel IH]; intros st out Hrun q n Hq Hp;
    [done|].
  apply run_turn in Hrun as [[Hnil _]|(y & st' & out' & Hturn & Hrun & ->)].
  { rewrite Hnil in Hq. by apply not_elem_of_nil in Hq. }
  specialize (IH _ _ Hrun).
  destruct Hturn as [c d rest Hqu Hc|c d rest Hqu Hc Hd|c d rest Hqu Hc Hd Hf
                    |c d rest Hqu Hc Hd Hf]; simpl in *.
  - rewrite Hqu in Hq. apply elem_of_cons in Hq as [->|Hq].
    + by apply fresh_path_head in Hp.
    + by apply (IH q).
  - by rewrite too_deep_unbounded in Hd.
  - done.
  - destruct (fresh_path_split _ _ _ c _ _ Hp) as [Hp'|[->|(m & Hcm & Hp')]].
    + right. apply (IH q); [|done]. rewrite Hqu in Hq.
      apply elem_of_cons in Hq as [->|Hq].
      * apply fresh_path_head in Hp'. set_solver.
      * rewrite fmap_app. set_solver.
    + left.
    + right. apply (IH m); [|done]. rewrite fmap_app.
      apply elem_of_app. right. rewrite <- list_fmap_compose.
      apply list_elem_of_fmap. exists m. split; [done|].
      apply list_elem_of_filter. split; [|done].
      by apply fresh_path_head in Hp'.
Qed.

End Complete.

Lemma closed_universeb_sound host direction universe :
  closed_universeb host direction universe = true →
  closed_universe host direction universe.
Proof.
  unfold closed_universeb, closed_universe, edge. intros Hall a b Ha Hab.
  rewrite forallb_forall in Hall.
  apply list_elem_of_In, Hall in Ha. rewrite forallb_forall in Ha.
  apply list_elem_of_In, Ha in Hab. by apply bool_decide_eq_true in Hab.
Qed.

(** ** The type filter *)

Lemma filtered_out_empty host n :
  Traverse.filtered_out host (Some ∅) n = false.
Proof. unfold Traverse.filtered_out. by rewrite decide_True. Qed.

Lemma filtered_out_types host types n :
  types ≠ ∅ →
  Traverse.filtered_out host (Some types) n = true ↔ nodeType host n ∉ types.
Proof.
  intros Hne. unfold Traverse.filtered_out. rewrite decide_False by done.
  destruct (decide (nodeType host n ∈ types)); split; done.
Qed.

Lemma iteration_empty_filter host direction max_depth st :
  Traverse.iteration host direction max_depth (Some ∅) st
  = Traverse.iteration host direction max_depth None st.
Proof.
  unfold Traverse.iteration. destruct (Traverse.queue st) as [|[n d] rest]; [done|].
  by rewrite filtered_out_empty.
Qed.

Lemma run_empty_filter host direction max_depth fuel st :
  Traverse.run host direction max_depth (Some ∅) fuel st
  = Traverse.run host direction max_depth None fuel st.
Proof.
  revert st. induction fuel as [|fuel IH]; intros st; [done|].
  simpl. rewrite iteration_empty_filter.
  destruct (Traverse.iteration _ _ _ None st) as [[[r|] st']|]; by rewrite ?IH.
Qed.

(** C10: an empty set given as the type filter behaves as no filter at
    all: no node is filtered out, every turn of the loop and the whole
    traversal are the same as with [None]; the node's type is looked at
    only for a non-empty set. *)
Theorem empty_filter_is_no_filter host direction max_depth :
  (∀ n, Traverse.filtered_out host (Some ∅) n = false)
  ∧ (∀ st, Traverse.iteration host direction max_depth (Some ∅) st
           = Traverse.iteration host direction max_depth None st)
  ∧ (∀ fuel start,
       traverse_graph host fuel start direction max_depth (Some ∅)
       = traverse_graph host fuel start direction max_depth None)
  ∧ (∀ types n, types ≠ ∅ →
       (Traverse.filtered_out host (Some types) n = true
        ↔ nodeType host n ∉ types)).
Proof.
  split; [apply filtered_out_empty|].
  split; [apply iteration_empty_filter|].
  split; [|intros; by apply filtered_out_types].
  intros fuel start. unfold traverse_graph.
  by rewrite run_empty_filter.
Qed.

Lemma empty_filter_is_no_filter_witness :
  Traverse.filtered_out (Scene.host cycle_scene) (Some {["lambert"]}) "B" = true
  ↔ nodeType (Scene.host cycle_scene) "B" ∉ ({["lambert"]} : gset string).
Proof.
  apply (empty_filter_is_no_filter (Scene.host cycle_scene) DOWNSTREAM (-1)).
  apply non_empty_singleton_L.
Defined.

(** ** A missing start node *)

(** C6: when the start node does not exist, the call logs one error,
    raises nothing and yields no record, whatever the other arguments
    (and with no turn of the loop: any fuel will do). *)
Theorem missing_start_yields_nothing
    host fuel start direction max_depth node_filter :
  objExists host start = false →
  traverse_graph host fuel start direction max_depth node_filter
  = Some ([(LOG_ERROR, "Start node does not exist: " +:+ start)], []).
Proof. unfold traverse_graph. by intros ->. Qed.

Lemma missing_start_yields_nothing_witness :
  traverse_graph (Scene.host cycle_scene) 0 "D" BOTH 3 None
  = Some ([(LOG_ERROR, "Start node does not exist: D")], []).
Proof.
  apply (missing_start_yields_nothing (Scene.host cycle_scene) 0 "D" BOTH 3 None).
  vm_compute. reflexivity.
Defined.

(** ** The depth ceiling *)

(** A queue of records that are all visited already or too deep is
    drained without a yield. *)
Lemma run_all_skipped host direction max_depth node_filter seen q fuel :
  Forall (λ r, r.1 ∈ seen ∨ Traverse.too_deep max_depth r.2 = true) q →
  (length q < fuel)%nat →
  Traverse.run host direction max_depth node_filter fuel
    (Traverse.mkState seen q) = Some [].
Proof.
  revert fuel. induction q as [|[n d] q IH]; intros fuel Hall Hlen.
  - destruct fuel; [simpl in Hlen; lia | done].
  - destruct fuel as [|fuel]; [lia|]. simpl in Hlen.
    apply Forall_cons in Hall as [Hhead Hall]. simpl in Hhead.
    assert (Traverse.iteration host direction max_depth node_filter
              (Traverse.mkState seen (((n, d)) :: q))
            = Some (None, Traverse.mkState seen q)) as Hit.
    { destruct (decide (n ∈ seen)) as [Hin|Hin].
      - by apply (iteration_seen _ _ _ _ (Traverse.mkState seen _) n d).
      - destruct Hhead as [?|Hd]; [done|].
        by apply (iteration_deep _ _ _ _ (Traverse.mkState seen _) n d). }
    simpl. rewrite Hit. apply IH; [done|lia].
Qed.

Lemma too_deep_false_le max_depth depth :
  0 ≤ max_depth → Traverse.too_deep max_depth depth = false → depth ≤ max_depth.
Proof.
  unfold Traverse.too_deep. intros Hmax [Hd|Hd]%andb_false_iff; lia.
Qed.

(** C4: [max_depth] is a ceiling on depth.  When it is negative no
    record is dropped for its depth: a dequeued node not yet visited is
    always processed, and all negative values give the same traversal.
    When it is non-negative, a dequeued record deeper than [max_depth]
    is dropped with no yield and no expansion, and no yielded record is
    deeper than [max_depth].  With [max_depth = 0] the traversal of an
    existing start node yields the start node alone if it passes the
    filter, and nothing otherwise. *)
Theorem max_depth_is_ceiling host direction max_depth node_filter :
  (max_depth < 0 →
     (∀ st n d rest,
        Traverse.queue st = (n, d) :: rest → n ∉ Traverse.visited st →
        ∃ y q,
          Traverse.iteration host direction max_depth node_filter st
          = Some (y, Traverse.mkState ({[n]} ∪ Traverse.visited st) q))
     ∧ (∀ fuel st,
          Traverse.run host direction max_depth node_filter fuel st
          = Traverse.run host direction (-1) node_filter fuel st))
  ∧ (0 ≤ max_depth →
       (∀ st n d rest,
          Traverse.queue st = (n, d) :: rest → max_depth < d →
          Traverse.iteration host direction max_depth node_filter st
          = Some (None, Traverse.mkState (Traverse.visited st) rest))
       ∧ (∀ fuel start log out,
            traverse_graph host fuel start direction max_depth node_filter
            = Some (log, out) →
            Forall (λ r, r.2 ≤ max_depth) out))
  ∧ (∀ fuel start,
       objExists host start = true →
       (2 + length (Traverse.next_nodes host direction start) ≤ fuel)%nat →
       traverse_graph host fuel start direction 0 node_filter
       = Some ([], if Traverse.filtered_out host node_filter start
                   then [] else [(start, 0)])).
Proof.
  split; [|split].
  - intros Hneg.
    assert (∀ d, Traverse.too_deep max_depth d = false) as Hdeep
      by (intros; by apply too_deep_unbounded).
    split.
    + intros st n d rest Hq Hn.
      destruct (Traverse.filtered_out host node_filter n) eqn:Hf.
      * eexists _, _. by apply (iteration_pruned _ _ _ _ _ n d).
      * eexists _, _. by apply (iteration_yield _ _ _ _ _ n d).
    + assert (∀ st,
        Traverse.iteration host direction max_depth node_filter st
        = Traverse.iteration host direction (-1) node_filter st) as Hit.
      { intros st. unfold Traverse.iteration.
        destruct (Traverse.queue st) as [|[n d] rest]; [done|].
        rewrite Hdeep. by rewrite (too_deep_unbounded (-1)). }
      induction fuel as [|fuel IH]; intros st; [done|].
      simpl. rewrite Hit.
      destruct (Traverse.iteration _ _ (-1) _ st) as [[[r|] st']|];
        by rewrite ?IH.
  - intros Hpos. split.
    + intros st n d rest Hq Hd.
      assert (Traverse.too_deep max_depth d = true) as Hdeep.
      { unfold Traverse.too_deep. apply andb_true_iff. lia. }
      destruct (decide (n ∈ Traverse.visited st)).
      * by apply (iteration_seen _ _ _ _ _ n d).
      * by apply (iteration_deep _ _ _ _ _ n d).
    + intros fuel start log out. unfold traverse_graph.
      destruct (objExists host start).
      * destruct (Traverse.run _ _ _ _ fuel _) as [out'|] eqn:Hrun; [|done].
        intros [= <- <-]. apply run_depth in Hrun.
        eapply Forall_impl; [exact Hrun|].
        intros r Hr. by apply too_deep_false_le.
      * intros [= <- <-]. constructor.
  - intros fuel start Hex Hfuel. unfold traverse_graph. rewrite Hex.
    destruct fuel as [|fuel]; [lia|]. simpl Traverse.run.
    destruct (Traverse.filtered_out host node_filter start) eqn:Hf.
    + rewrite (iteration_pruned _ _ _ _ _ start 0 []); [|done|set_solver|done..].
      rewrite run_all_skipped; [done|constructor|simpl; lia].
    + rewrite (iteration_yield _ _ _ _ _ start 0 []); [|done|set_solver|done..].
      rewrite run_all_skipped; [done| |].
      * simpl. apply Forall_fmap, Forall_forall. intros m _. by right.
      * simpl. rewrite length_fmap.
        pose proof (length_filter
          (λ m, m ∉ ({[start]} ∪ ∅ : gset string))
          (Traverse.next_nodes host direction start)). simpl in *. lia.
Qed.

Lemma max_depth_is_ceiling_witness :
  traverse_graph (Scene.host cycle_scene) 4 "A" BOTH 0 None
  = Some ([], [("A", 0)]).
Proof.
  apply (max_depth_is_ceiling (Scene.host cycle_scene) BOTH 0 None).
  - vm_compute. reflexivity.
  - vm_compute. lia.
Defined.

(** ** Pruning by the type filter *)

(** What a traversal yields is reached from the start node through
    nodes that pass the filter. *)
Lemma traverse_sound host fuel start direction max_depth node_filter log out :
  traverse_graph host fuel start direction max_depth node_filter
  = Some (log, out) →
  Forall (λ r, reachable_unfiltered host direction node_filter start r.1) out.
Proof.
  unfold traverse_graph. destruct (objExists host start).
  - destruct (Traverse.run _ _ _ _ fuel _) as [out'|] eqn:Hrun; [|done].
    intros [= <- <-]. eapply run_sound; [|exact Hrun].
    intros q d [= -> ->]%list_elem_of_singleton. constructor.
  - intros [= <- <-]. constructor.
Qed.

Lemma reachable_unfiltered_within host direction types start n :
  types ≠ ∅ →
  reachable_unfiltered host direction (Some types) start n →
  reachable_within host direction types start n.
Proof.
  intros Hne [Hpath Hn].
  assert (∀ a, Traverse.filtered_out host (Some types) a = false →
               nodeType host a ∈ types) as Hpass.
  { intros a Ha. destruct (decide (nodeType host a ∈ types)) as [|Hout]; [done|].
    apply (filtered_out_types host types a Hne) in Hout. congruence. }
  split; [|by apply Hpass].
  eapply rtc_subrel; [|exact Hpath].
  intros a b [Ha Hab]. split; [by apply Hpass|done].
Qed.

(** C1: with a non-empty type filter, a dequeued node whose type is not
    in the filter is never yielded and never expanded (the queue only
    loses its head), and it is marked visited whenever the turn gets as
    far as the filter.  So every yielded node is reached from the start
    node along nodes that are all of a type in the filter; a node that
    can only be reached through a filtered-out node is never yielded,
    and a start node of an excluded type gives the empty sequence. *)
Theorem filter_prunes_expansion host direction max_depth types :
  types ≠ ∅ →
  (∀ st n d rest,
     Traverse.queue st = (n, d) :: rest → nodeType host n ∉ types →
     ∃ seen,
       Traverse.iteration host direction max_depth (Some types) st
       = Some (None, Traverse.mkState seen rest)
       ∧ (Traverse.too_deep max_depth d = false → n ∈ seen)
       ∧ Traverse.visited st ⊆ seen ∧ seen ⊆ {[n]} ∪ Traverse.visited st)
  ∧ (∀ fuel start log out,
       traverse_graph host fuel start direction max_depth (Some types)
       = Some (log, out) →
       Forall (λ r, reachable_within host direction types start r.1) out)
  ∧ (∀ fuel start,
       nodeType host start ∉ types → (2 ≤ fuel)%nat →
       ∃ log,
         traverse_graph host fuel start direction max_depth (Some types)
         = Some (log, [])).
Proof.
  intros Hne. split; [|split].
  - intros st n d rest Hq Hout.
    apply (filtered_out_types host types n Hne) in Hout.
    destruct (decide (n ∈ Traverse.visited st)) as [Hin|Hin].
    { exists (Traverse.visited st).
      split; [by apply (iteration_seen _ _ _ _ _ n d)|]. set_solver. }
    destruct (Traverse.too_deep max_depth d) eqn:Hd.
    { exists (Traverse.visited st).
      split; [by apply (iteration_deep _ _ _ _ _ n d)|]. set_solver. }
    exists ({[n]} ∪ Traverse.visited st).
    split; [by apply (iteration_pruned _ _ _ _ _ n d)|]. set_solver.
  - intros fuel start log out Htr. apply traverse_sound in Htr.
    eapply Forall_impl; [exact Htr|].
    intros r Hr. by apply reachable_unfiltered_within.
  - intros fuel start Hout Hfuel.
    apply (filtered_out_types host types start Hne) in Hout.
    unfold traverse_graph. destruct (objExists host start); [|by eexists].
    exists []. destruct fuel as [|[|fuel]]; [lia..|].
    assert (Traverse.iteration host direction max_depth (Some types)
              (Traverse.initial start)
            = Some (None, Traverse.mkState (∅ : gset string) [])
            ∨ Traverse.iteration host direction max_depth (Some types)
                (Traverse.initial start)
              = Some (None, Traverse.mkState ({[start]} ∪ ∅) [])) as [Hit|Hit].
    { destruct (Traverse.too_deep max_depth 0) eqn:Hd.
      - left. by apply (iteration_deep _ _ _ _ (Traverse.initial start) start 0).
      - right.
        by apply (iteration_pruned _ _ _ _ (Traverse.initial start) start 0). }
    all: simpl Traverse.run; by rewrite Hit.
Qed.

Lemma filter_prunes_expansion_witness :
  ∃ log,
    traverse_graph (Scene.host cycle_scene) 2 "B" DOWNSTREAM (-1)
      (Some {["lambert"]})
    = Some (log, []).
Proof.
  apply (filter_prunes_expansion (Scene.host cycle_scene) DOWNSTREAM (-1)
           {["lambert"]}).
  - apply non_empty_singleton_L.
  - vm_compute. intros H. discriminate H.
  - lia.
Defined.

(** The scenario of the specification: on the cycle, a filter that
    excludes the type of B yields A alone; C passes the filter but lies
    behind B. *)
Example cycle_filter_excludes_B :
  traverse_graph (Scene.host cycle_scene) 10 "A" DOWNSTREAM (-1)
    (Some {["lambert"]})
  = Some ([], [("A", 0)])
  ∧ nodeType (Scene.host cycle_scene) "C" = "lambert".
Proof. split; vm_compute; reflexivity. Qed.

(** ** Termination *)

Lemma traverse_total host direction max_depth node_filter universe start :
  closed_universe host direction universe → start ∈ universe →
  ∃ log out, ∀ fuel,
    (enough_fuel host direction universe ≤ fuel)%nat →
    traverse_graph host fuel start direction max_depth node_filter
    = Some (log, out).
Proof.
  intros Hclosed Hstart. unfold traverse_graph.
  destruct (objExists host start); [|by eexists _, _].
  destruct (run_terminates host direction max_depth node_filter universe
              (enough_fuel host direction universe) (Traverse.initial start))
    as [out Hout]; [done| |by (unfold measure, enough_fuel; simpl; lia)|].
  { by intros q d [= -> ->]%list_elem_of_singleton. }
  exists [], out. intros fuel Hfuel.
  by rewrite (run_more _ _ _ _ _ fuel _ _ Hout Hfuel).
Qed.

(** C2: on a finite graph, cyclic or not (a finite list of nodes closed
    under the neighbour lists), the traversal terminates for every
    direction, depth ceiling and filter, within a number of turns fixed
    by the graph: each node is expanded at most once.  On the cycle
    A -> B -> C -> A, downstream from A with unlimited depth, it yields
    (A,0), (B,1), (C,2) and stops. *)
Theorem traverse_terminates :
  (∀ host direction max_depth node_filter universe start,
     closed_universe host direction universe → start ∈ universe →
     ∃ log out, ∀ fuel,
       (enough_fuel host direction universe ≤ fuel)%nat →
       traverse_graph host fuel start direction max_depth node_filter
       = Some (log, out))
  ∧ (∀ fuel, (4 ≤ fuel)%nat →
       traverse_graph (Scene.host cycle_scene) fuel "A" DOWNSTREAM (-1) None
       = Some ([], [("A", 0); ("B", 1); ("C", 2)])).
Proof.
  split; [intros; by apply traverse_total|].
  intros fuel Hfuel. unfold traverse_graph.
  replace (objExists (Scene.host cycle_scene) "A") with true
    by (vm_compute; reflexivity).
  rewrite (run_more _ _ _ _ 4 fuel _ [("A", 0); ("B", 1); ("C", 2)]);
    [done| |done].
  vm_compute. reflexivity.
Qed.

Lemma traverse_terminates_witness :
  ∃ log out, ∀ fuel,
    (enough_fuel (Scene.host cycle_scene) BOTH ["A"; "B"; "C"] ≤ fuel)%nat →
    traverse_graph (Scene.host cycle_scene) fuel "C" BOTH 1 (Some {["file"]})
    = Some (log, out).
Proof.
  apply (proj1 traverse_terminates).
  - apply closed_universeb_sound. vm_compute. reflexivity.
  - apply list_elem_of_In. simpl. tauto.
Defined.

(** ** Each node at most once *)

Lemma state_after_visited_mono host direction max_depth node_filter i j st :
  (i ≤ j)%nat →
  Traverse.visited
    (Traverse.state_after host direction max_depth node_filter i st)
  ⊆ Traverse.visited
      (Traverse.state_after host direction max_depth node_filter j st).
Proof.
  revert j st. induction i as [|i IH]; intros j st Hle.
  - clear Hle. revert st. induction j as [|j IHj]; intros st; [done|].
    simpl. destruct (Traverse.iteration _ _ _ _ st) as [[y st']|] eqn:Hit;
      [|done].
    apply iteration_turn, turn_visited_mono in Hit.
    etrans; [exact Hit|]. apply IHj.
  - destruct j as [|j]; [lia|]. simpl.
    destruct (Traverse.iteration _ _ _ _ st) as [[y st']|]; [|done].
    apply IH. lia.
Qed.

Lemma traverse_nodup host fuel start direction max_depth node_filter log out :
  traverse_graph host fuel start direction max_depth node_filter
  = Some (log, out) →
  NoDup out.*1.
Proof.
  unfold traverse_graph. destruct (objExists host start).
  - destruct (Traverse.run _ _ _ _ fuel _) as [out'|] eqn:Hrun; [|done].
    intros [= <- <-]. by apply run_nodup in Hrun as [? _].
  - intros [= <- <-]. constructor.
Qed.

Lemma traverse_run host fuel start direction max_depth node_filter log out :
  objExists host start = true →
  traverse_graph host fuel start direction max_depth node_filter
  = Some (log, out) →
  log = [] ∧
  Traverse.run host direction max_depth node_filter fuel
    (Traverse.initial start) = Some out.
Proof.
  unfold traverse_graph. intros ->.
  destruct (Traverse.run _ _ _ _ fuel _) as [out'|]; [|done].
  by intros [= <- <-].
Qed.

(** The neighbour list of the loop against the lists of the host. *)
Lemma elem_of_or_empty (answer : option (list string)) b :
  b ∈ or_empty answer ↔ ∃ nodes, answer = Some nodes ∧ b ∈ nodes.
Proof.
  destruct answer as [[|a nodes]|]; simpl.
  - split; [by intros ?%not_elem_of_nil|].
    intros (nodes & [= <-] & Hb). done.
  - split; [by eexists|]. by intros (nodes' & [= <-] & Hb).
  - split; [by intros ?%not_elem_of_nil|]. by intros (? & ? & _).
Qed.

Lemma edge_connected host direction a b :
  edge host direction a b ↔ connected host direction a b.
Proof.
  unfold edge, Traverse.next_nodes, connected, host_lists.
  destruct direction; simpl.
  - by rewrite app_nil_r, elem_of_or_empty.
  - by rewrite elem_of_or_empty.
  - by rewrite elem_of_app, !elem_of_or_empty.
Qed.

Lemma reachable_connected host direction a n :
  reachable host direction a n ↔ connected_from host direction a n.
Proof.
  split; apply rtc_subrel; intros x y Hxy; by apply edge_connected.
Qed.

Lemma host_closed_universe host direction universe :
  host_closed host direction universe ↔ closed_universe host direction universe.
Proof.
  unfold host_closed, closed_universe.
  split; intros Hclosed a b Ha Hab; apply (Hclosed a b Ha);
    by apply edge_connected.
Qed.

(** C3: in every turn the visited set either stays as it is or gains
    the dequeued node, which was not in it before, and it never shrinks
    along a call: a node enters it at most once.  Every record appended
    to the queue in a turn names a node that is not visited, so a
    visited node is never enqueued again.  No node is yielded twice.
    With no filter and unlimited depth, on a finite graph (acyclic or
    not) and in each direction, the yielded nodes are exactly the nodes
    reached from an existing start node along the connection lists of
    the host in that direction, each once. *)
Theorem visited_once_reachable_once host direction :
  (∀ max_depth node_filter st y st',
     Traverse.iteration host direction max_depth node_filter st
     = Some (y, st') →
     (Traverse.visited st' = Traverse.visited st
      ∨ ∃ n d, head (Traverse.queue st) = Some (n, d)
               ∧ (n ∉ Traverse.visited st)
               ∧ Traverse.visited st' = {[n]} ∪ Traverse.visited st)
     ∧ ∃ new, Traverse.queue st' = tail (Traverse.queue st) ++ new
              ∧ ∀ m d, (m, d) ∈ new → m ∉ Traverse.visited st')
  ∧ (∀ max_depth node_filter i j st, (i ≤ j)%nat →
       Traverse.visited
         (Traverse.state_after host direction max_depth node_filter i st)
       ⊆ Traverse.visited
           (Traverse.state_after host direction max_depth node_filter j st))
  ∧ (∀ max_depth node_filter fuel start log out,
       traverse_graph host fuel start direction max_depth node_filter
       = Some (log, out) →
       NoDup out.*1)
  ∧ (∀ max_depth universe start,
       max_depth < 0 → objExists host start = true →
       host_closed host direction universe → start ∈ universe →
       ∃ out,
         (∀ fuel, (enough_fuel host direction universe ≤ fuel)%nat →
            traverse_graph host fuel start direction max_depth None
            = Some ([], out))
         ∧ NoDup out.*1
         ∧ ∀ n, n ∈ out.*1 ↔ connected_from host direction start n).
Proof.
  split; [|split; [|split]].
  - intros max_depth node_filter st y st' Hit.
    apply iteration_turn in Hit.
    destruct Hit as [n d rest Hq|n d rest Hq|n d rest Hq Hn|n d rest Hq Hn];
      simpl; rewrite Hq; simpl.
    1-2: split; [by left|]; exists []; split; [by rewrite app_nil_r|];
         by intros ? ? ?%not_elem_of_nil.
    + split; [right; by exists n, d|]. exists [].
      split; [by rewrite app_nil_r|]. by intros ? ? ?%not_elem_of_nil.
    + split; [right; by exists n, d|]. eexists. split; [done|].
      intros m d' (m' & [= -> ->] & Hm)%list_elem_of_fmap.
      by apply list_elem_of_filter in Hm as [? _].
  - intros. by apply state_after_visited_mono.
  - intros. by eapply traverse_nodup.
  - intros max_depth universe start Hneg Hex Hclosed Hstart.
    apply host_closed_universe in Hclosed.
    destruct (traverse_total host direction max_depth None universe start)
      as (log & out & Hout); [done..|].
    pose proof (Hout _ (Nat.le_refl _)) as Htr.
    destruct (traverse_run _ _ _ _ _ _ _ _ Hex Htr) as [-> Hrun].
    exists out. split; [done|]. split; [by eapply traverse_nodup|].
    intros n. rewrite <- reachable_connected. split.
    + intros (r & -> & Hr)%list_elem_of_fmap.
      apply traverse_sound in Htr. rewrite Forall_forall in Htr.
      destruct (Htr r Hr) as [Hpath _].
      eapply rtc_subrel; [|exact Hpath]. by intros a b [_ ?].
    + intros Hreach.
      eapply (run_complete host direction max_depth Hneg _ _ _ Hrun start);
        [set_solver|]. by apply reachable_fresh.
Qed.

Lemma visited_once_reachable_once_witness :
  traverse_graph (Scene.host shader_scene) 8 "sg1" UPSTREAM (-1) None
  = Some ([], [("sg1", 0); ("lambert1", 1); ("file1", 2)])
  ∧ NoDup ["sg1"; "lambert1"; "file1"]
  ∧ ∀ n, n ∈ ["sg1"; "lambert1"; "file1"]
         ↔ connected_from (Scene.host shader_scene) UPSTREAM "sg1" n.
Proof.
  destruct (visited_once_reachable_once (Scene.host shader_scene) UPSTREAM)
    as (_ & _ & _ & Hexact).
  destruct (Hexact (-1) ["file1"; "lambert1"; "sg1"] "sg1")
    as (out & Hout & Hnodup & Hreach).
  - lia.
  - vm_compute. reflexivity.
  - apply host_closed_universe, closed_universeb_sound.
    vm_compute. reflexivity.
  - apply list_elem_of_In. simpl. tauto.
  - assert (out = [("sg1", 0); ("lambert1", 1); ("file1", 2)]) as ->.
    { specialize (Hout 8%nat). vm_compute in Hout.
      specialize (Hout (le_n 8)). by injection Hout as <-. }
    split; [vm_compute; reflexivity|]. split; [exact Hnodup|exact Hreach].
Defined.

(** ** The typed query *)

(** The accumulating loop of [find_connected_nodes_by_type] is a filter
    on the yielded nodes. *)
Lemma results_loop_filter host target_type
    (records : list (string * Z)) (results : list string) :
  fold_left
    (λ (results : list string) (record : string * Z),
       if decide (nodeType host (fst record) = target_type)
       then results ++ [fst record] else results)
    records results
  = results ++ filter (λ n, nodeType host n = target_type) records.*1.
Proof.
  revert results. induction records as [|r records IH]; intros results; simpl.
  - by rewrite app_nil_r.
  - rewrite IH, filter_cons.
    destruct (decide (nodeType host r.1 = target_type)); [|done].
    by rewrite <- app_assoc.
Qed.

(** C7: [find_connected_nodes_by_type] runs the traversal unfiltered
    ([None]) and with unlimited depth ([-1]) and returns, in the order
    of the traversal, exactly the yielded nodes whose type is the target
    type: a subsequence of the traversal's nodes. *)
Theorem find_by_type_filters_traversal host fuel start target_type direction :
  find_connected_nodes_by_type host fuel start target_type direction
  = (λ res, filter (λ n, nodeType host n = target_type) res.2.*1)
    <$> traverse_graph host fuel start direction (-1) None
  ∧ ∀ found,
      find_connected_nodes_by_type host fuel start target_type direction
      = Some found →
      ∃ log records,
        traverse_graph host fuel start direction (-1) None
        = Some (log, records)
        ∧ found `sublist_of` records.*1
        ∧ ∀ n, n ∈ found ↔ n ∈ records.*1 ∧ nodeType host n = target_type.
Proof.
  unfold find_connected_nodes_by_type.
  destruct (traverse_graph host fuel start direction (-1) None)
    as [[log records]|]; simpl; [|done].
  rewrite results_loop_filter. simpl. split; [done|].
  intros found [= <-]. exists log, records. split; [done|].
  split; [apply sublist_filter|].
  intros n. by rewrite list_elem_of_filter, (comm and).
Qed.

Lemma find_by_type_filters_traversal_witness :
  ∃ log records,
    traverse_graph (Scene.host cycle_scene) 5 "A" UPSTREAM (-1) None
    = Some (log, records)
    ∧ ["B"] `sublist_of` records.*1
    ∧ ∀ n, n ∈ ["B"]
           ↔ n ∈ records.*1 ∧ nodeType (Scene.host cycle_scene) n = "file".
Proof.
  apply (proj2 (find_by_type_filters_traversal
                  (Scene.host cycle_scene) 5 "A" "file" UPSTREAM)).
  vm_compute. reflexivity.
Defined.

(** ** The connection extractor *)

Lemma connections_loop_inbound node plugs connections records :
  connections_loop node plugs connections = Ok records →
  (∀ r, r ∈ connections → source_node r = node → dest_node r = node) →
  ∀ r, r ∈ records → source_node r = node → dest_node r = node.
Proof.
  revert connections.
  induction plugs as [plugs IH] using (induction_ltof1 _ (@length string)).
  unfold ltof in IH. intros connections.
  destruct plugs as [|plug_a [|plug_b plugs']]; simpl.
  - by intros [= <-].
  - done.
  - unfold unpack_plug.
    destruct (split_dot plug_a) as [[node_a attr_a]|]; simpl; [|done].
    destruct (split_dot plug_b) as [[node_b attr_b]|]; simpl; [|done].
    destruct (String.eqb node_a node) eqn:Heq; intros Hloop Hacc.
    + apply String.eqb_eq in Heq as ->.
      eapply (IH plugs'); [simpl; lia|exact Hloop|].
      intros r [Hr|Hr%list_elem_of_singleton]%elem_of_app; [by apply Hacc|].
      by subst r.
    + apply String.eqb_neq in Heq.
      eapply (IH plugs'); [simpl; lia|exact Hloop|].
      intros r [Hr|Hr%list_elem_of_singleton]%elem_of_app; [by apply Hacc|].
      subst r. simpl. done.
Qed.

(** C5 (what the code does): for a node whose only link pair lists the
    node's own output plug first, [get_all_connections] returns one
    record, but with the node as destination and the other endpoint as
    source.  More generally no record it returns has the queried node
    as source and another node as destination. *)
Theorem outgoing_link_reported_inbound :
  get_all_connections (Scene.host link_scene) "ramp1"
  = Ok [mkConnectionInfo "blinn1" "color" "ramp1" "outColor"]
  ∧ (∀ host node plug_a plug_b out_attr other in_attr,
       objExists host node = true →
       listConnections_plugs host node = Some [plug_a; plug_b] →
       split_dot plug_a = Some (node, out_attr) →
       split_dot plug_b = Some (other, in_attr) →
       get_all_connections host node
       = Ok [mkConnectionInfo other in_attr node out_attr])
  ∧ (∀ host node records r,
       get_all_connections host node = Ok records →
       r ∈ records → source_node r = node → dest_node r = node).
Proof.
  split; [vm_compute; reflexivity|]. split.
  - intros host node plug_a plug_b out_attr other in_attr Hex Hplugs Ha Hb.
    unfold get_all_connections. rewrite Hex, Hplugs. simpl.
    unfold unpack_plug. rewrite Ha, Hb. simpl.
    by rewrite String.eqb_refl.
  - intros host node records r. unfold get_all_connections.
    destruct (objExists host node).
    + intros Hloop. eapply connections_loop_inbound; [exact Hloop|].
      by intros ? ?%not_elem_of_nil.
    + by intros [= <-] ?%not_elem_of_nil.
Qed.

Lemma outgoing_link_reported_inbound_witness :
  get_all_connections (Scene.host shader_scene) "sg1"
  = Ok [mkConnectionInfo "lambert1" "outColor" "sg1" "surfaceShader"].
Proof.
  apply (proj1 (proj2 outgoing_link_reported_inbound)
           (Scene.host shader_scene) "sg1"
           "sg1.surfaceShader" "lambert1.outColor").
  all: vm_compute; reflexivity.
Defined.

(** ** Construction of the OpenMaya iterator *)

(** C9: when the start name does not resolve to exactly one node (no
    match, or several), [DGIterator.__init__] raises the resolution
    error: no iterator object is built, so no later call can return an
    empty list for it.  With exactly one match the iterator is built on
    that node. *)
Theorem unresolved_start_fails_construction
    {MObject : Type} (native : FastPath.NativeHost MObject) start :
  (length (FastPath.matching native start) ≠ 1%nat →
     FastPath.DGIterator_init native start = Raise ResolutionError
     ∧ ∀ self, FastPath.DGIterator_init native start ≠ Ok self)
  ∧ (∀ obj, FastPath.matching native start = [obj] →
       FastPath.DGIterator_init native start
       = Ok (FastPath.mkDGIterator obj)).
Proof.
  unfold FastPath.DGIterator_init, FastPath.MSelectionList_add. split.
  - intros Hlen.
    destruct (FastPath.matching native start) as [|obj [|obj' objs]];
      simpl in *; done.
  - by intros obj ->.
Qed.

Lemma unresolved_start_fails_construction_witness :
  FastPath.DGIterator_init (names_host ["pCube1"; "pCube1"; "pSphere1"])
    "pCube1"
  = Raise ResolutionError
  ∧ FastPath.DGIterator_init (names_host ["pCube1"; "pCube1"; "pSphere1"])
      "pTorus1"
    = Raise ResolutionError.
Proof.
  split.
  - apply (unresolved_start_fails_construction
             (names_host ["pCube1"; "pCube1"; "pSphere1"]) "pCube1").
    vm_compute. lia.
  - apply (unresolved_start_fails_construction
             (names_host ["pCube1"; "pCube1"; "pSphere1"]) "pTorus1").
    vm_compute. lia.
Defined.

(** ** Duplicated neighbours *)

Section Thinning.
Variable host : Host.
Variable direction : TraversalDirection.
Variable max_depth : Z.
Variable node_filter : option (gset string).

Local Abbreviation thinned := (thinned max_depth).
Local Abbreviation dead := (dead max_depth).

Lemma dead_mono seen seen' r : seen ⊆ seen' → dead seen r → dead seen' r.
Proof. intros Hsub [Hin|Hd]; [left; set_solver | by right]. Qed.

Lemma thinned_weaken seen seen' earlier earlier' q q' :
  thinned seen earlier q q' →
  seen ⊆ seen' →
  (∀ r, r ∈ earlier → dead seen' r ∨ r ∈ earlier') →
  thinned seen' earlier' q q'.
Proof.
  intros Hth Hsub. revert earlier'.
  induction Hth as [earlier|earlier r q q' _ IH|earlier r q q' Hr _ IH];
    intros earlier' Hearlier.
  - constructor.
  - apply thinned_keep, IH.
    intros x [->|Hx]%elem_of_cons; [right; by left|].
    destruct (Hearlier x Hx); [by left|right; by right].
  - apply thinned_drop; [|by apply IH].
    destruct Hr as [Hr|Hr]; [left; by eapply dead_mono|by apply Hearlier].
Qed.

Lemma thinned_app seen earlier q1 q1' q2 q2' :
  thinned seen earlier q1 q1' →
  thinned seen [] q2 q2' →
  thinned seen earlier (q1 ++ q2) (q1' ++ q2').
Proof.
  intros H1 H2.
  induction H1 as [earlier|earlier r q q' _ IH|earlier r q q' Hr _ IH]; simpl.
  - eapply thinned_weaken; [exact H2|done|]. by intros ? ?%not_elem_of_nil.
  - by apply thinned_keep.
  - by apply thinned_drop.
Qed.

Lemma thinned_refl seen earlier q : thinned seen earlier q q.
Proof.
  revert earlier. induction q as [|r q IH]; intros earlier; by constructor.
Qed.

(** The records enqueued for a list of neighbours, against those
    enqueued for its first occurrences. *)
Lemma thinned_dedup seen (visited' : gset string) depth listed earlier nodes :
  (∀ n, n ∈ listed → n ∉ visited' → (n, depth + 1) ∈ earlier) →
  thinned seen earlier
    ((λ n, (n, depth + 1)) <$> filter (λ n, n ∉ visited') nodes)
    ((λ n, (n, depth + 1)) <$>
       filter (λ n, n ∉ visited') (Deduplicating.dedup_from listed nodes)).
Proof.
  revert listed earlier.
  induction nodes as [|n nodes IH]; intros listed earlier Hlisted; simpl.
  - constructor.
  - rewrite filter_cons. destruct (decide (n ∈ listed)) as [Hin|Hin].
    + destruct (decide (n ∉ visited')) as [Hfresh|Hold].
      * rewrite fmap_cons. apply thinned_drop; [right; by apply Hlisted|].
        by apply IH.
      * by apply IH.
    + rewrite filter_cons. destruct (decide (n ∉ visited')) as [Hfresh|Hold].
      * rewrite !fmap_cons. apply thinned_keep, IH.
        intros m [->%elem_of_singleton|Hm]%elem_of_union Hm';
          [by left|right; by apply Hlisted].
      * apply IH.
        intros m [->%elem_of_singleton|Hm]%elem_of_union Hm';
          [done|by apply Hlisted].
Qed.

(** One turn on a queue and on the same queue thinned, when the head
    of the queue is kept. *)
Lemma thinned_turn seen n d q q' y st1 :
  thinned seen [(n, d)] q q' →
  Traverse.iteration host direction max_depth node_filter
    (Traverse.mkState seen ((n, d) :: q)) = Some (y, st1) →
  ∃ st1',
    Deduplicating.iteration host direction max_depth node_filter
      (Traverse.mkState seen ((n, d) :: q')) = Some (y, st1')
    ∧ Traverse.visited st1' = Traverse.visited st1
    ∧ thinned (Traverse.visited st1) []
        (Traverse.queue st1) (Traverse.queue st1').
Proof.
  intros Hth. unfold Traverse.iteration, Deduplicating.iteration. simpl.
  destruct (decide (n ∈ seen)) as [Hin|Hin].
  { intros [= <- <-]. eexists. split; [done|]. split; [done|]. simpl.
    eapply thinned_weaken; [exact Hth|done|].
    intros r ->%list_elem_of_singleton. left. by left. }
  destruct (Traverse.too_deep max_depth d) eqn:Hd.
  { intros [= <- <-]. eexists. split; [done|]. split; [done|]. simpl.
    eapply thinned_weaken; [exact Hth|done|].
    intros r ->%list_elem_of_singleton. left. by right. }
  assert (thinned ({[n]} ∪ seen) [] q q') as Hth'.
  { eapply thinned_weaken; [exact Hth|set_solver|].
    intros r ->%list_elem_of_singleton. left. left. set_solver. }
  destruct (Traverse.filtered_out host node_filter n).
  { intros [= <- <-]. eexists. split; [done|]. by split. }
  intros [= <- <-]. eexists. split; [done|]. split; [done|]. simpl.
  rewrite !enqueue_next_app. apply thinned_app; [done|].
  apply thinned_dedup. set_solver.
Qed.

(** A dead head is skipped by the loop. *)
Lemma dead_skipped seen r q :
  dead seen r →
  Traverse.iteration host direction max_depth node_filter
    (Traverse.mkState seen (r :: q)) = Some (None, Traverse.mkState seen q).
Proof.
  destruct r as [n d]. intros Hdead. unfold Traverse.iteration. simpl.
  destruct (decide (n ∈ seen)) as [Hin|Hin]; [done|].
  destruct Hdead as [?|Hd]; [done|]. simpl in Hd. by rewrite Hd.
Qed.

(** What the loop yields, the deduplicating loop yields from the
    thinned queue. *)
Lemma run_thinned fuel seen q q' out :
  thinned seen [] q q' →
  Traverse.run host direction max_depth node_filter fuel
    (Traverse.mkState seen q) = Some out →
  ∃ fuel',
    Deduplicating.run host direction max_depth node_filter fuel'
      (Traverse.mkState seen q') = Some out.
Proof.
  revert seen q q' out.
  induction fuel as [|fuel IH]; intros seen q q' out Hth Hrun; [done|].
  inversion Hth as [?|? [n d] q1 q1' Hth1|? r q1 ? Hr Hth1]; subst.
  - exists 1%nat. simpl in *. by simplify_eq.
  - simpl in Hrun.
    destruct (Traverse.iteration _ _ _ _ _) as [[y st1]|] eqn:Hit.
    2: { unfold Traverse.iteration in Hit. simpl in Hit.
         repeat case_match; done. }
    destruct (thinned_turn _ _ _ _ _ _ _ Hth1 Hit) as (st1' & Hit' & Hv & Hq).
    destruct st1 as [seen1 qa], st1' as [seen1' qb]. simpl in *. subst seen1'.
    destruct y as [r|].
    + destruct (Traverse.run _ _ _ _ fuel _) as [out1|] eqn:Hrun1; [|done].
      destruct (IH _ _ _ _ Hq Hrun1) as [fuel' Hrun'].
      exists (S fuel'). simpl. rewrite Hit', Hrun'. done.
    + destruct (IH _ _ _ _ Hq Hrun) as [fuel' Hrun'].
      exists (S fuel'). simpl. by rewrite Hit'.
  - destruct Hr as [Hr|Hr]; [|by apply not_elem_of_nil in Hr].
    simpl in Hrun. rewrite (dead_skipped _ _ _ Hr) in Hrun.
    by eapply IH.
Qed.

(** And conversely. *)
Lemma run_unthinned fuel' seen q q' out :
  thinned seen [] q q' →
  Deduplicating.run host direction max_depth node_filter fuel'
    (Traverse.mkState seen q') = Some out →
  ∃ fuel,
    Traverse.run host direction max_depth node_filter fuel
      (Traverse.mkState seen q) = Some out.
Proof.
  revert seen q q' out.
  induction fuel' as [|fuel' IH]; intros seen q q' out Hth Hrun; [done|].
  revert q' Hth Hrun. induction q as [|r q IHq]; intros q' Hth Hrun.
  - inversion Hth; subst. exists 1%nat. simpl in *. by simplify_eq.
  - inversion Hth as [|? [n d] q1 q1' Hth1|? r' q1 ? Hr Hth1]; subst.
    + destruct (Traverse.iteration host direction max_depth node_filter
                  (Traverse.mkState seen ((n, d) :: q))) as [[y st1]|] eqn:Hit.
      2: { unfold Traverse.iteration in Hit. simpl in Hit.
           repeat case_match; done. }
      destruct (thinned_turn _ _ _ _ _ _ _ Hth1 Hit) as (st1' & Hit' & Hv & Hq).
      destruct st1 as [seen1 qa], st1' as [seen1' qb]. simpl in *.
      subst seen1'. rewrite Hit' in Hrun.
      destruct y as [r|].
      * destruct (Deduplicating.run _ _ _ _ fuel' _) as [out1|] eqn:Hrun1;
          [|done].
        destruct (IH _ _ _ _ Hq Hrun1) as [fuel Hfuel].
        exists (S fuel). simpl. rewrite Hit, Hfuel. done.
      * destruct (IH _ _ _ _ Hq Hrun) as [fuel Hfuel].
        exists (S fuel). simpl. by rewrite Hit.
    + destruct Hr as [Hr|Hr]; [|by apply not_elem_of_nil in Hr].
      destruct (IHq _ Hth1 Hrun) as [fuel Hfuel].
      exists (S fuel). simpl. by rewrite (dead_skipped _ _ _ Hr).
Qed.

End Thinning.

(** C8, as stated, fails: expanding lambert1 upstream in the shader
    scene, where file1 feeds lambert1 through two links, appends
    (file1, 1) to the queue twice. *)
Lemma expansion_enqueues_duplicates :
  Traverse.iteration (Scene.host shader_scene) UPSTREAM (-1) None
    (Traverse.initial "lambert1")
  = Some (Some ("lambert1", 0),
          Traverse.mkState ({["lambert1"]} ∪ ∅) [("file1", 1); ("file1", 1)])
  ∧ ¬ expansion_deduplicates (Scene.host shader_scene) UPSTREAM (-1) None.
Proof.
  assert (Traverse.iteration (Scene.host shader_scene) UPSTREAM (-1) None
            (Traverse.initial "lambert1")
          = Some (Some ("lambert1", 0),
                  Traverse.mkState ({["lambert1"]} ∪ ∅)
                    [("file1", 1); ("file1", 1)])) as Hit.
  { rewrite (iteration_yield _ _ _ _ _ "lambert1" 0 []);
      [|done|set_solver|done..].
    do 3 f_equal. }
  split; [exact Hit|].
  intros Hclaim.
  specialize (Hclaim _ _ _ [("file1", 1); ("file1", 1)] Hit eq_refl).
  apply NoDup_cons in Hclaim as [Hclaim _]. apply Hclaim. by left.
Qed.

(** C8 (amended): an expansion does not deduplicate.  It appends to the
    queue one record at [depth + 1] for every occurrence, in the
    upstream list followed by the downstream list, of a neighbour that
    is not visited.  The repeats are dropped when they are dequeued, so
    no node is yielded twice, and the traversal yields exactly what it
    would yield if every expansion enqueued only the first occurrence
    of each neighbour. *)
Theorem duplicates_dropped_on_dequeue host direction max_depth node_filter :
  (∀ st n d rest,
     Traverse.queue st = (n, d) :: rest → n ∉ Traverse.visited st →
     Traverse.too_deep max_depth d = false →
     Traverse.filtered_out host node_filter n = false →
     Traverse.iteration host direction max_depth node_filter st
     = Some (Some (n, d),
             Traverse.mkState ({[n]} ∪ Traverse.visited st)
               (rest ++ ((λ m, (m, d + 1)) <$>
                  filter (λ m, m ∉ {[n]} ∪ Traverse.visited st)
                    (or_empty
                       (if Traverse.goes_upstream direction
                        then listConnections host n true false
                        else None)
                     ++ or_empty
                          (if Traverse.goes_downstream direction
                           then listConnections host n false true
                           else None))))))
  ∧ (∀ fuel start log out,
       traverse_graph host fuel start direction max_depth node_filter
       = Some (log, out) →
       NoDup out.*1)
  ∧ (∀ start log out,
       (∃ fuel,
          traverse_graph host fuel start direction max_depth node_filter
          = Some (log, out))
       ↔ (∃ fuel,
            Deduplicating.traverse_graph host fuel start direction max_depth
              node_filter
            = Some (log, out))).
Proof.
  split; [|split].
  - intros st n d rest Hq Hn Hd Hf.
    rewrite (iteration_yield _ _ _ _ _ n d rest Hq Hn Hd Hf).
    unfold Traverse.next_nodes.
    by destruct (Traverse.goes_upstream direction),
                (Traverse.goes_downstream direction).
  - intros. by eapply traverse_nodup.
  - intros start log out.
    unfold traverse_graph, Deduplicating.traverse_graph.
    destruct (objExists host start); [|done].
    split; intros [fuel Hrun].
    + destruct (Traverse.run _ _ _ _ fuel _) as [out'|] eqn:Hrun'; [|done].
      destruct (run_thinned host direction max_depth node_filter fuel ∅
                  [(start, 0)] [(start, 0)] out' (thinned_refl _ _ _ _) Hrun')
        as [fuel' Hfuel'].
      exists fuel'. unfold Traverse.initial. by rewrite Hfuel'.
    + destruct (Deduplicating.run _ _ _ _ fuel _) as [out'|] eqn:Hrun';
        [|done].
      destruct (run_unthinned host direction max_depth node_filter fuel ∅
                  [(start, 0)] [(start, 0)] out' (thinned_refl _ _ _ _) Hrun')
        as [fuel' Hfuel'].
      exists fuel'. unfold Traverse.initial. by rewrite Hfuel'.
Qed.

Lemma duplicates_dropped_on_dequeue_witness :
  NoDup [("sg1", 0); ("lambert1", 1); ("file1", 2)].*1.
Proof.
  apply (proj1 (proj2 (duplicates_dropped_on_dequeue
                         (Scene.host shader_scene) UPSTREAM (-1) None))
           6%nat "sg1" []).
  vm_compute. reflexivity.
Defined.

(** ** Further scenarios of the specification *)

(** The cycle with [max_depth = 1]: (A,0) and (B,1) only. *)
Example cycle_max_depth_1 :
  traverse_graph (Scene.host cycle_scene) 10 "A" DOWNSTREAM 1 None
  = Some ([], [("A", 0); ("B", 1)]).
Proof. vm_compute. reflexivity. Qed.

(** Direction [BOTH] on the link ramp1 -> blinn1 finds both nodes from
    either end. *)
Example link_both_directions :
  traverse_graph (Scene.host link_scene) 10 "ramp1" BOTH (-1) None
  = Some ([], [("ramp1", 0); ("blinn1", 1)])
  ∧ traverse_graph (Scene.host link_scene) 10 "blinn1" BOTH (-1) None
    = Some ([], [("blinn1", 0); ("ramp1", 1)]).
Proof. split; vm_compute; reflexivity. Qed.

(** The typed query on the shader network: the texture behind the
    shading group. *)
Example shader_textures :
  find_connected_nodes_by_type (Scene.host shader_scene) 10 "sg1" "file"
    UPSTREAM
  = Some ["file1"].
Proof. vm_compute. reflexivity. Qed.

(** * Further properties of the module *)

(** ** Breadth-first layers *)

Section Layers.
Variable host : Host.
Variable direction : TraversalDirection.
Variable max_depth : Z.
Variable node_filter : option (gset string).

Local Abbreviation next_nodes := (Traverse.next_nodes host direction).
Local Abbreviation too_deep := (Traverse.too_deep max_depth).
Local Abbreviation filtered_out := (Traverse.filtered_out host node_filter).
Local Abbreviation run := (Traverse.run host direction max_depth node_filter).
Local Abbreviation turn := (turn host direction max_depth node_filter).
Local Abbreviation edge := (edge host direction).
Local Abbreviation open_edge := (open_edge host direction node_filter).
Local Abbreviation open_walk := (open_walk host direction node_filter).

Lemma layered_bounds d0 q r : layered d0 q → r ∈ q → d0 ≤ r.2 ≤ d0 + 1.
Proof.
  intros (q1 & q2 & -> & H1 & H2) [Hr|Hr]%elem_of_app.
  - rewrite Forall_forall in H1. rewrite (H1 r Hr). lia.
  - rewrite Forall_forall in H2. rewrite (H2 r Hr). lia.
Qed.

(** Below the head of a layered queue, and with the records of the next
    layer appended, the queue is layered from the depth of the head. *)
Lemma layered_next d0 c dc rest new :
  layered d0 ((c, dc) :: rest) →
  Forall (λ r, r.2 = dc + 1) new →
  d0 ≤ dc ∧ layered dc ((c, dc) :: rest) ∧ layered dc (rest ++ new).
Proof.
  intros (q1 & q2 & Hq & H1 & H2) Hnew. destruct q1 as [|r1 q1]; simpl in Hq.
  - subst q2. apply Forall_cons in H2 as [Hdc H2]. simpl in Hdc.
    split; [lia|]. split.
    + exists ((c, dc) :: rest), []. rewrite app_nil_r. split; [done|].
      split; [|constructor]. constructor; [done|].
      eapply Forall_impl; [exact H2|]. intros r. simpl. lia.
    + exists rest, new. split; [done|]. split; [|done].
      eapply Forall_impl; [exact H2|]. intros r. simpl. lia.
  - simplify_eq. apply Forall_cons in H1 as [Hdc H1]. simpl in Hdc. subst d0.
    split; [lia|]. split.
    + exists ((c, dc) :: q1), q2. split; [done|]. split; [|done].
      by constructor.
    + exists q1, (q2 ++ new). rewrite app_assoc. split; [done|].
      split; [done|]. by apply Forall_app.
Qed.

Lemma layered_tail d0 c dc rest :
  layered d0 ((c, dc) :: rest) → layered dc rest.
Proof.
  intros Hl. destruct (layered_next d0 c dc rest [] Hl) as (_ & _ & Hrest);
    [constructor|]. by rewrite app_nil_r in Hrest.
Qed.

Lemma turn_layered d0 st y st' :
  turn st y st' → layered d0 (Traverse.queue st) →
  ∃ c dc rest,
    Traverse.queue st = (c, dc) :: rest ∧ d0 ≤ dc
    ∧ layered dc (Traverse.queue st')
    ∧ ∀ r, y = Some r → r = (c, dc).
Proof.
  intros Hturn Hl.
  destruct Hturn as [n d rest Hq|n d rest Hq|n d rest Hq|n d rest Hq];
    rewrite Hq in Hl; exists n, d, rest; simpl.
  1-3: destruct (layered_next _ _ _ _ [] Hl) as (? & _ & _); [constructor|];
       split; [done|]; split; [done|]; split; [by eapply layered_tail|done].
  destruct (layered_next _ _ _ _
              ((λ m, (m, d + 1)) <$>
                 filter (λ m, m ∉ {[n]} ∪ Traverse.visited st) (next_nodes n))
              Hl) as (? & _ & ?).
  { apply Forall_fmap, Forall_forall. by intros. }
  split; [done|]. split; [done|]. split; [done|]. by intros r [= <-].
Qed.

Lemma depths_ascend_weaken floor floor' records :
  floor' ≤ floor → depths_ascend floor records → depths_ascend floor' records.
Proof. destruct records as [|r records]; simpl; [done|]. intros ? [? ?]. split; [lia|done]. Qed.

Lemma depths_ascend_floor floor records r :
  depths_ascend floor records → r ∈ records → floor ≤ r.2.
Proof.
  revert floor. induction records as [|r' records IH]; intros floor Hasc Hr.
  - by apply not_elem_of_nil in Hr.
  - destruct Hasc as [Hle Hasc]. apply elem_of_cons in Hr as [->|Hr]; [done|].
    specialize (IH _ Hasc Hr). lia.
Qed.

Lemma depths_ascend_lookup floor records i j ri rj :
  depths_ascend floor records → (i ≤ j)%nat →
  records !! i = Some ri → records !! j = Some rj →
  floor ≤ ri.2 ∧ ri.2 ≤ rj.2.
Proof.
  revert floor i j. induction records as [|r records IH];
    intros floor i j Hasc Hij Hi Hj; [done|].
  destruct Hasc as [Hle Hasc]. destruct i as [|i]; simpl in Hi.
  - simplify_eq. split; [done|]. destruct j as [|j]; simpl in Hj.
    + simplify_eq. lia.
    + apply (depths_ascend_floor _ records); [done|].
      by eapply list_elem_of_lookup_2.
  - destruct j as [|j]; [lia|]. simpl in Hj.
    destruct (IH r.2 i j) as [? ?]; [done|lia|done..|]. split; [lia|done].
Qed.

(** The records of a run come layer by layer. *)
Lemma run_ascends fuel d0 st out :
  run fuel st = Some out → layered d0 (Traverse.queue st) →
  depths_ascend d0 out.
Proof.
  revert d0 st out. induction fuel as [|fuel IH]; intros d0 st out Hrun Hl;
    [done|].
  apply run_turn in Hrun as [[_ ->]|(y & st' & out' & Hturn & Hrun & ->)];
    [done|].
  destruct (turn_layered _ _ _ _ Hturn Hl) as (c & dc & rest & _ & Hle & Hl' & Hy).
  specialize (IH _ _ _ Hrun Hl'). destruct y as [r|].
  - rewrite (Hy r eq_refl). simpl. done.
  - by eapply depths_ascend_weaken.
Qed.

Lemma too_deep_mono d d' : d ≤ d' → too_deep d = true → too_deep d' = true.
Proof.
  unfold Traverse.too_deep. intros Hle [? ?]%andb_true_iff.
  apply andb_true_iff. split; [done|]. lia.
Qed.

Lemma too_deep_mono_false d d' : d ≤ d' → too_deep d' = false → too_deep d = false.
Proof.
  intros Hle Hd'. destruct (too_deep d) eqn:Hd; [|done].
  by rewrite (too_deep_mono _ _ Hle Hd) in Hd'.
Qed.

(** A queued record of a node that can still be yielded leads to a
    record of that node, no deeper. *)
Lemma queued_is_yielded fuel d0 st out n d :
  run fuel st = Some out → layered d0 (Traverse.queue st) →
  (n, d) ∈ Traverse.queue st → n ∉ Traverse.visited st →
  filtered_out n = false → too_deep d = false →
  ∃ d', d' ≤ d ∧ (n, d') ∈ out.
Proof.
  revert d0 st out. induction fuel as [|fuel IH];
    intros d0 st out Hrun Hl Hin Hn Hf Hd; [done|].
  apply run_turn in Hrun as [[Hnil _]|(y & st' & out' & Hturn & Hrun & ->)].
  { rewrite Hnil in Hin. by apply not_elem_of_nil in Hin. }
  destruct (turn_layered _ _ _ _ Hturn Hl) as (c & dc & rest & Hq & _ & Hl' & _).
  assert (dc ≤ d) as Hdc.
  { rewrite Hq in Hin, Hl. apply elem_of_cons in Hin as [[= _ ->]|Hin]; [lia|].
    apply layered_tail in Hl.
    apply (layered_bounds _ _ (n, d) Hl Hin). }
  specialize (IH _ _ _ Hrun Hl').
  destruct Hturn as [c' d'' rest' Hq' Hc|c' d'' rest' Hq' Hc Hdeep
                    |c' d'' rest' Hq' Hc Hdeep Hfc|c' d'' rest' Hq' Hc Hdeep Hfc];
    rewrite Hq' in Hq, Hin; simplify_eq; simpl in *.
  - apply IH; [|done..]. apply elem_of_cons in Hin as [[= -> _]|Hin]; done.
  - rewrite (too_deep_mono _ _ Hdc Hdeep) in Hd. done.
  - assert (n ≠ c) as Hne by congruence.
    apply IH; [|set_solver|done..].
    apply elem_of_cons in Hin as [[= ? _]|Hin]; done.
  - destruct (decide (n = c)) as [->|Hne].
    + exists dc. split; [done|]. by left.
    + destruct IH as (d' & Hle & Hout); [|set_solver|done..|].
      * apply elem_of_cons in Hin as [[= ? _]|Hin]; [done|].
        apply elem_of_app. by left.
      * exists d'. split; [done|]. by right.
Qed.

(** A listed neighbour of a yielded node is yielded too, at most one
    layer deeper, unless it was visited before the run. *)
Lemma neighbour_is_yielded fuel d0 st out m dm n :
  run fuel st = Some out → layered d0 (Traverse.queue st) →
  (m, dm) ∈ out → edge m n →
  filtered_out n = false → too_deep (dm + 1) = false →
  n ∈ Traverse.visited st ∨ ∃ d, d ≤ dm + 1 ∧ (n, d) ∈ out.
Proof.
  revert d0 st out. induction fuel as [|fuel IH];
    intros d0 st out Hrun Hl Hm Hedge Hf Hd; [done|].
  apply run_turn in Hrun as [[_ ->]|(y & st' & out' & Hturn & Hrun & ->)].
  { by apply not_elem_of_nil in Hm. }
  destruct (turn_layered _ _ _ _ Hturn Hl) as (c & dc & rest & Hq & _ & Hl' & _).
  pose proof (run_ascends _ _ _ _ Hrun Hl') as Hasc.
  specialize (IH _ _ _ Hrun Hl').
  destruct Hturn as [c' d'' rest' Hq' Hc|c' d'' rest' Hq' Hc Hdeep
                    |c' d'' rest' Hq' Hc Hdeep Hfc|c' d'' rest' Hq' Hc Hdeep Hfc];
    rewrite Hq' in Hq; simplify_eq; simpl in *.
  - by apply IH.
  - by apply IH.
  - destruct IH as [Hin|?]; [done..| |by right].
    apply elem_of_union in Hin as [->%elem_of_singleton|Hin]; [congruence|].
    by left.
  - apply elem_of_cons in Hm as [[= -> ->]|Hm].
    + destruct (decide (n ∈ {[c]} ∪ Traverse.visited st)) as [Hin|Hin].
      * apply elem_of_union in Hin as [->%elem_of_singleton|Hin]; [|by left].
        right. exists dc. split; [lia|by left].
      * destruct (queued_is_yielded _ _ _ _ n (dc + 1) Hrun Hl')
          as (d' & Hle & Hout); [|done..|].
        { simpl. apply elem_of_app. right. apply list_elem_of_fmap.
          exists n. split; [done|]. by apply list_elem_of_filter. }
        right. exists d'. split; [done|by right].
    + destruct IH as [Hin|(d' & Hle & Hout)]; [done..| |].
      * apply elem_of_union in Hin as [->%elem_of_singleton|Hin]; [|by left].
        right. exists dc. split; [|by left].
        pose proof (depths_ascend_floor _ _ _ Hasc Hm). simpl in *. lia.
      * right. exists d'. split; [done|by right].
Qed.

(** Each queued record carries the length of a walk that reaches it. *)
Lemma run_walks fuel start st out :
  (∀ q d, (q, d) ∈ Traverse.queue st →
     ∃ k, d = Z.of_nat k ∧ open_walk start k q) →
  run fuel st = Some out →
  Forall (λ r, ∃ k, r.2 = Z.of_nat k ∧ open_walk start k r.1
                    ∧ filtered_out r.1 = false ∧ too_deep r.2 = false) out.
Proof.
  intros Hq Hrun.
  eapply (run_invariant host direction max_depth node_filter
            (λ st, ∀ q d, (q, d) ∈ Traverse.queue st →
                     ∃ k, d = Z.of_nat k ∧ open_walk start k q));
    [|exact Hq|exact Hrun].
  clear. intros st y st' Hinv Hturn.
  destruct Hturn as [n d rest Hqu|n d rest Hqu|n d rest Hqu|n d rest Hqu ? Hd Hf];
    simpl; rewrite Hqu in Hinv.
  1-3: split; [|done]; intros q' d' Hin; apply (Hinv q' d'); set_solver.
  destruct (Hinv n d) as (k & -> & Hwalk); [set_solver|].
  split.
  - intros q' d' [Hin|Hin]%elem_of_app.
    + apply (Hinv q' d'). set_solver.
    + apply list_elem_of_fmap in Hin as (m & [= -> ->] & Hm).
      apply list_elem_of_filter in Hm as [_ Hm].
      exists (S k). split; [lia|]. eapply walk_step; [exact Hwalk|]. by split.
  - intros r [= <-]. by exists k.
Qed.

End Layers.

Lemma too_deep_zero max_depth : Traverse.too_deep max_depth 0 = false.
Proof.
  unfold Traverse.too_deep. destruct (0 <=? max_depth) eqn:Hm; [|done].
  simpl. apply Z.ltb_ge. lia.
Qed.

Lemma too_deep_false_iff max_depth d :
  Traverse.too_deep max_depth d = false ↔ max_depth < 0 ∨ d ≤ max_depth.
Proof.
  unfold Traverse.too_deep. rewrite andb_false_iff, Z.leb_gt, Z.ltb_ge. lia.
Qed.

Lemma layered_initial start : layered 0 (Traverse.queue (Traverse.initial start)).
Proof.
  exists [(start, 0)], []. split; [done|]. split; repeat constructor.
Qed.

Lemma nodup_fst_functional (l : list (string * Z)) n d d' :
  NoDup l.*1 → (n, d) ∈ l → (n, d') ∈ l → d = d'.
Proof.
  induction l as [|[m e] l IH]; simpl; intros Hnd Hd Hd'.
  - by apply not_elem_of_nil in Hd.
  - apply NoDup_cons in Hnd as [Hm Hnd].
    apply elem_of_cons in Hd as [Heq|Hd];
      apply elem_of_cons in Hd' as [Heq'|Hd']; simplify_eq; try done.
    + exfalso. apply Hm. apply list_elem_of_fmap. by exists (m, d').
    + exfalso. apply Hm. apply list_elem_of_fmap. by exists (m, d).
    + by apply IH.
Qed.

(** A walk along nodes that pass the filter, no longer than the depth
    ceiling allows, ends in a yielded node. *)
Lemma walk_is_yielded host direction max_depth node_filter fuel start out k n :
  Traverse.run host direction max_depth node_filter fuel
    (Traverse.initial start) = Some out →
  open_walk host direction node_filter start k n →
  Traverse.filtered_out host node_filter n = false →
  Traverse.too_deep max_depth (Z.of_nat k) = false →
  ∃ d, d ≤ Z.of_nat k ∧ (n, d) ∈ out.
Proof.
  intros Hrun Hwalk. induction Hwalk as [|k m n Hwalk IH [Hfm Hedge]];
    intros Hf Hd.
  - eapply (queued_is_yielded _ _ _ _ _ 0); [exact Hrun|apply layered_initial
      |by left|set_solver|done|done].
  - destruct IH as (dm & Hle & Hm); [done| |].
    { eapply too_deep_mono_false; [|exact Hd]. lia. }
    destruct (neighbour_is_yielded _ _ _ _ _ 0 _ _ m dm n Hrun
                (layered_initial start) Hm Hedge Hf) as [Hin|(d & Hle' & Hn)].
    + eapply too_deep_mono_false; [|exact Hd]. lia.
    + simpl in Hin. set_solver.
    + exists d. split; [lia|done].
Qed.

(** X1: the records of a traversal come in breadth-first layer order:
    depths are never negative and never decrease along the sequence, and
    for an existing start node that passes the filter the first record
    is the start node at depth 0. *)
Theorem traverse_layer_order
    host fuel start direction max_depth node_filter log out :
  traverse_graph host fuel start direction max_depth node_filter
  = Some (log, out) →
  (∀ i j ri rj, (i ≤ j)%nat → out !! i = Some ri → out !! j = Some rj →
     0 ≤ ri.2 ∧ ri.2 ≤ rj.2)
  ∧ (objExists host start = true →
     Traverse.filtered_out host node_filter start = false →
     ∃ out', out = (start, 0) :: out').
Proof.
  intros Htr. destruct (objExists host start) eqn:Hex.
  - destruct (traverse_run _ _ _ _ _ _ _ _ Hex Htr) as [-> Hrun]. split.
    + intros i j ri rj Hij Hi Hj.
      eapply depths_ascend_lookup; [|exact Hij|exact Hi|exact Hj].
      eapply run_ascends; [exact Hrun|apply layered_initial].
    + intros _ Hf. destruct fuel as [|fuel]; [done|]. simpl in Hrun.
      rewrite (iteration_yield _ _ _ _ _ start 0 []) in Hrun;
        [|done|set_solver|apply too_deep_zero|done].
      destruct (Traverse.run _ _ _ _ fuel _) as [out'|]; [|done].
      simplify_eq/=. by eexists.
  - unfold traverse_graph in Htr. rewrite Hex in Htr. simplify_eq.
    split; [|done]. by intros i j ri rj _ Hi.
Qed.

Lemma traverse_layer_order_witness :
  ∃ out',
    [("sg1", 0); ("lambert1", 1); ("file1", 2)] = ("sg1", 0) :: out'.
Proof.
  apply (traverse_layer_order (Scene.host shader_scene) 6 "sg1" UPSTREAM (-1)
           None []).
  all: vm_compute; reflexivity.
Defined.

(** X2: the depth of a yielded record is the length of a walk from the
    start node to the yielded node, along neighbour lists and through
    nodes that pass the filter; the yielded node passes the filter too
    and its depth is within a non-negative [max_depth]. *)
Theorem yielded_depth_is_walk_length
    host fuel start direction max_depth node_filter log out n d :
  traverse_graph host fuel start direction max_depth node_filter
  = Some (log, out) →
  (n, d) ∈ out →
  ∃ k, d = Z.of_nat k
       ∧ open_walk host direction node_filter start k n
       ∧ Traverse.filtered_out host node_filter n = false
       ∧ (0 ≤ max_depth → d ≤ max_depth).
Proof.
  intros Htr Hin. destruct (objExists host start) eqn:Hex.
  - destruct (traverse_run _ _ _ _ _ _ _ _ Hex Htr) as [_ Hrun].
    eapply run_walks in Hrun.
    + rewrite Forall_forall in Hrun.
      destruct (Hrun _ Hin) as (k & Hk & Hwalk & Hf & Hd). simpl in *.
      exists k. repeat split; try done. intros Hmax.
      by apply too_deep_false_le.
    + intros q d' [= -> ->]%list_elem_of_singleton. exists O.
      split; [done|constructor].
  - unfold traverse_graph in Htr. rewrite Hex in Htr. simplify_eq.
    by apply not_elem_of_nil in Hin.
Qed.

Lemma yielded_depth_is_walk_length_witness :
  ∃ k, 2 = Z.of_nat k
       ∧ open_walk (Scene.host cycle_scene) DOWNSTREAM None "A" k "C"
       ∧ Traverse.filtered_out (Scene.host cycle_scene) None "C" = false
       ∧ (0 ≤ -1 → 2 ≤ -1).
Proof.
  apply (yielded_depth_is_walk_length (Scene.host cycle_scene) 4 "A"
           DOWNSTREAM (-1) None [] [("A", 0); ("B", 1); ("C", 2)]).
  - vm_compute. reflexivity.
  - apply list_elem_of_In. simpl. tauto.
Defined.

(** X3: every node at the end of a walk from an existing start node,
    through nodes that pass the filter and no longer than a non-negative
    [max_depth], is yielded when the traversal returns, at a depth that
    is at most the length of the walk. *)
Theorem walk_within_depth_is_yielded
    host fuel start direction max_depth node_filter log out k n :
  objExists host start = true →
  traverse_graph host fuel start direction max_depth node_filter
  = Some (log, out) →
  open_walk host direction node_filter start k n →
  Traverse.filtered_out host node_filter n = false →
  max_depth < 0 ∨ Z.of_nat k ≤ max_depth →
  ∃ d, d ≤ Z.of_nat k ∧ (n, d) ∈ out.
Proof.
  intros Hex Htr Hwalk Hf Hd.
  destruct (traverse_run _ _ _ _ _ _ _ _ Hex Htr) as [_ Hrun].
  eapply walk_is_yielded; [exact Hrun|exact Hwalk|exact Hf|].
  by apply too_deep_false_iff.
Qed.

Lemma walk_within_depth_is_yielded_witness :
  ∃ d, d ≤ Z.of_nat 1
       ∧ ("B", d) ∈ [("A", 0); ("B", 1); ("C", 2)].
Proof.
  apply (walk_within_depth_is_yielded (Scene.host cycle_scene) 4 "A"
           DOWNSTREAM 2 None []).
  - vm_compute. reflexivity.
  - vm_compute. reflexivity.
  - apply (walk_step _ _ _ _ O "A" "B"); [constructor|].
    split; [reflexivity|]. apply list_elem_of_In. simpl. tauto.
  - reflexivity.
  - right. simpl. lia.
Defined.

(** X4: the depth of a yielded record is the shortest distance: no walk
    from the start node to the yielded node through nodes that pass the
    filter is shorter than the yielded depth. *)
Theorem yielded_depth_is_shortest
    host fuel start direction max_depth node_filter log out n d k :
  traverse_graph host fuel start direction max_depth node_filter
  = Some (log, out) →
  (n, d) ∈ out →
  open_walk host direction node_filter start k n →
  d ≤ Z.of_nat k.
Proof.
  intros Htr Hin Hwalk. destruct (objExists host start) eqn:Hex.
  - destruct (traverse_run _ _ _ _ _ _ _ _ Hex Htr) as [_ Hrun].
    pose proof (run_depth _ _ _ _ _ _ _ Hrun) as Hdepth.
    assert (Forall
              (λ r, reachable_unfiltered host direction node_filter start r.1)
              out) as Hsound.
    { eapply run_sound; [|exact Hrun].
      intros q d' [= -> ->]%list_elem_of_singleton. constructor. }
    rewrite Forall_forall in Hdepth, Hsound.
    specialize (Hdepth _ Hin). destruct (Hsound _ Hin) as [_ Hf].
    simpl in *.
    destruct (Traverse.too_deep max_depth (Z.of_nat k)) eqn:Hk.
    + apply too_deep_false_iff in Hdepth.
      unfold Traverse.too_deep in Hk. apply andb_true_iff in Hk. lia.
    + destruct (walk_is_yielded _ _ _ _ _ _ _ _ _ Hrun Hwalk Hf Hk)
        as (d' & Hle & Hin').
      apply run_nodup in Hrun as [Hnd _].
      by rewrite (nodup_fst_functional _ _ _ _ Hnd Hin Hin').
  - unfold traverse_graph in Htr. rewrite Hex in Htr. simplify_eq.
    by apply not_elem_of_nil in Hin.
Qed.

Lemma yielded_depth_is_shortest_witness : 1 ≤ Z.of_nat 4.
Proof.
  apply (yielded_depth_is_shortest (Scene.host cycle_scene) 4 "A"
           DOWNSTREAM (-1) None [] [("A", 0); ("B", 1); ("C", 2)] "B").
  - vm_compute. reflexivity.
  - apply list_elem_of_In. simpl. tauto.
  - apply (walk_step _ _ _ _ 3%nat "A" "B");
      [|split; [reflexivity|apply list_elem_of_In; simpl; tauto]].
    apply (walk_step _ _ _ _ 2%nat "C" "A");
      [|split; [reflexivity|apply list_elem_of_In; simpl; tauto]].
    apply (walk_step _ _ _ _ 1%nat "B" "C");
      [|split; [reflexivity|apply list_elem_of_In; simpl; tauto]].
    apply (walk_step _ _ _ _ 0%nat "A" "B");
      [|split; [reflexivity|apply list_elem_of_In; simpl; tauto]].
    constructor.
Defined.

(** ** Truncation by the depth ceiling *)

Lemma filter_none {A} (P : A → Prop) `{∀ x, Decision (P x)} (l : list A) :
  Forall (λ x, ¬ P x) l → filter P l = [].
Proof.
  induction 1 as [|x l Hx _ IH]; [done|].
  rewrite filter_cons, decide_False by done. done.
Qed.


(** A run under a ceiling [m] yields the records of depth at most [m]
    of a run under any ceiling that is not lower. *)
Lemma run_truncate host direction m max_depth node_filter fuel d0 st out :
  0 ≤ m → max_depth < 0 ∨ m ≤ max_depth →
  layered d0 (Traverse.queue st) →
  Traverse.run host direction max_depth node_filter fuel st = Some out →
  ∃ fuel',
    Traverse.run host direction m node_filter fuel' st
    = Some (filter (λ r, r.2 ≤ m) out).
Proof.
  intros Hm Hmax. revert d0 st out.
  induction fuel as [|fuel IH]; intros d0 st out Hl Hrun; [done|].
  pose proof Hrun as Hrun0.
  apply run_turn in Hrun as [[Hnil ->]|(y & st' & out' & Hturn & Hrun & ->)].
  { exists 1%nat. simpl. by rewrite iteration_empty. }
  destruct (turn_layered _ _ _ _ _ _ _ _ Hturn Hl)
    as (c & dc & rest & Hq & _ & Hl' & Hy).
  destruct (decide (dc ≤ m)) as [Hdc|Hdc].
  - assert (Traverse.too_deep m dc = false) as Hdm
      by (apply too_deep_false_iff; lia).
    assert (Traverse.too_deep max_depth dc = false) as Hdmax
      by (apply too_deep_false_iff; lia).
    destruct (IH _ _ _ Hl' Hrun) as [fuel' Hfuel'].
    assert (Traverse.iteration host direction m node_filter st = Some (y, st'))
      as Hit.
    { destruct Hturn as [c' d' rest' Hq'|c' d' rest' Hq' ? Hdeep
                        |c' d' rest' Hq'|c' d' rest' Hq'];
        rewrite Hq' in Hq; simplify_eq.
      - by apply (iteration_seen _ _ _ _ _ c dc).
      - congruence.
      - by apply (iteration_pruned _ _ _ _ _ c dc).
      - by apply (iteration_yield _ _ _ _ _ c dc). }
    exists (S fuel'). simpl. rewrite Hit. destruct y as [r|]; [|done].
    rewrite Hfuel'. simpl. rewrite (Hy r eq_refl), filter_cons. simpl.
    by rewrite decide_True.
  - assert (layered dc (Traverse.queue st)) as Hldc.
    { rewrite Hq in Hl |- *.
      by destruct (layered_next _ _ _ _ [] Hl) as (_ & ? & _); [constructor|]. }
    pose proof (run_ascends _ _ _ _ _ _ _ _ Hrun0 Hldc) as Hasc.
    rewrite filter_none.
    2: { apply Forall_forall. intros r Hr.
         pose proof (depths_ascend_floor _ _ _ Hasc Hr). lia. }
    exists (S (length (Traverse.queue st))). destruct st as [seen q].
    apply run_all_skipped; [|simpl; lia].
    apply Forall_forall. intros r Hr. right. simpl in *.
    pose proof (layered_bounds _ _ _ Hldc Hr).
    unfold Traverse.too_deep. apply andb_true_iff. lia.
Qed.

(** X5: lowering the depth ceiling only truncates the traversal: with a
    ceiling [m >= 0] the records are exactly those of depth at most [m]
    among the records of the traversal under any higher ceiling or
    under no ceiling, in the same order. *)
Theorem lower_ceiling_truncates
    host fuel start direction m max_depth node_filter log out :
  0 ≤ m → max_depth < 0 ∨ m ≤ max_depth →
  traverse_graph host fuel start direction max_depth node_filter
  = Some (log, out) →
  ∃ fuel',
    traverse_graph host fuel' start direction m node_filter
    = Some (log, filter (λ r, r.2 ≤ m) out).
Proof.
  intros Hm Hmax Htr. destruct (objExists host start) eqn:Hex.
  - destruct (traverse_run _ _ _ _ _ _ _ _ Hex Htr) as [-> Hrun].
    destruct (run_truncate _ _ m _ _ _ 0 _ _ Hm Hmax
                (layered_initial start) Hrun) as [fuel' Hfuel'].
    exists fuel'. unfold traverse_graph. by rewrite Hex, Hfuel'.
  - unfold traverse_graph in *. rewrite Hex in *. simplify_eq. by exists O.
Qed.

Lemma lower_ceiling_truncates_witness :
  ∃ fuel',
    traverse_graph (Scene.host cycle_scene) fuel' "A" DOWNSTREAM 1 None
    = Some ([], filter (λ r, r.2 ≤ 1) [("A", 0); ("B", 1); ("C", 2)]).
Proof.
  apply (lower_ceiling_truncates (Scene.host cycle_scene) 4 "A" DOWNSTREAM 1
           (-1) None).
  - lia.
  - left. lia.
  - vm_compute. reflexivity.
Defined.

(** ** The typed queries on a finite graph *)

(** With no filter and no ceiling the traversal of a finite graph
    yields the reachable nodes, each once. *)
Lemma unfiltered_traversal_exact host direction universe start :
  objExists host start = true →
  host_closed host direction universe → start ∈ universe →
  ∃ out,
    (∀ fuel, (enough_fuel host direction universe ≤ fuel)%nat →
       traverse_graph host fuel start direction (-1) None = Some ([], out))
    ∧ NoDup out.*1
    ∧ ∀ n, n ∈ out.*1 ↔ connected_from host direction start n.
Proof.
  intros Hex Hclosed%host_closed_universe Hstart.
  destruct (traverse_total host direction (-1) None universe start)
    as (log & out & Hout); [done..|].
  pose proof (Hout _ (Nat.le_refl _)) as Htr.
  destruct (traverse_run _ _ _ _ _ _ _ _ Hex Htr) as [-> Hrun].
  exists out. split; [done|]. split; [by eapply traverse_nodup|].
  intros n. rewrite <- reachable_connected. split.
  - intros (r & -> & Hr)%list_elem_of_fmap.
    apply traverse_sound in Htr. rewrite Forall_forall in Htr.
    destruct (Htr r Hr) as [Hpath _].
    eapply rtc_subrel; [|exact Hpath]. by intros a b [_ ?].
  - intros Hreach.
    eapply (run_complete host direction (-1) ltac:(lia) _ _ _ Hrun start);
      [set_solver|]. by apply reachable_fresh.
Qed.

Lemma find_by_type_exact host direction universe start target_type :
  objExists host start = true →
  host_closed host direction universe → start ∈ universe →
  ∃ found,
    (∀ fuel, (enough_fuel host direction universe ≤ fuel)%nat →
       find_connected_nodes_by_type host fuel start target_type direction
       = Some found)
    ∧ NoDup found
    ∧ ∀ n, n ∈ found
           ↔ connected_from host direction start n
             ∧ nodeType host n = target_type.
Proof.
  intros Hex Hclosed Hstart.
  destruct (unfiltered_traversal_exact host direction universe start)
    as (out & Hout & Hnd & Hreach); [done..|].
  exists (filter (λ n, nodeType host n = target_type) out.*1).
  split; [|split].
  - intros fuel Hfuel. unfold find_connected_nodes_by_type.
    rewrite (Hout fuel Hfuel). by rewrite results_loop_filter.
  - by apply NoDup_filter.
  - intros n. rewrite list_elem_of_filter, Hreach. tauto.
Qed.

(** X6: on a finite graph, [find_connected_nodes_by_type] from an
    existing start node returns exactly the nodes of the target type
    that are reached along the connection lists of the host in the
    given direction (the start node included when it has that type),
    each once; [find_texture_nodes] returns exactly the nodes of type
    "file" reached from the shader along the source lists of the host. *)
Theorem typed_search_finds_reachable host universe start :
  objExists host start = true →
  (∀ direction target_type,
     host_closed host direction universe → start ∈ universe →
     ∃ found,
       (∀ fuel, (enough_fuel host direction universe ≤ fuel)%nat →
          find_connected_nodes_by_type host fuel start target_type direction
          = Some found)
       ∧ NoDup found
       ∧ ∀ n, n ∈ found
              ↔ connected_from host direction start n
                ∧ nodeType host n = target_type)
  ∧ (host_closed host UPSTREAM universe → start ∈ universe →
     ∃ textures,
       (∀ fuel, (enough_fuel host UPSTREAM universe ≤ fuel)%nat →
          find_texture_nodes host fuel start = Some textures)
       ∧ NoDup textures
       ∧ ∀ n, n ∈ textures
              ↔ connected_from host UPSTREAM start n
                ∧ nodeType host n = "file").
Proof.
  intros Hex. split.
  - intros. by apply find_by_type_exact.
  - intros. unfold find_texture_nodes. by apply find_by_type_exact.
Qed.

Lemma typed_search_finds_reachable_witness :
  find_texture_nodes (Scene.host shader_scene) 8 "sg1" = Some ["file1"]
  ∧ NoDup ["file1"]
  ∧ ∀ n, n ∈ ["file1"]
         ↔ connected_from (Scene.host shader_scene) UPSTREAM "sg1" n
           ∧ nodeType (Scene.host shader_scene) n = "file".
Proof.
  destruct (typed_search_finds_reachable (Scene.host shader_scene)
              ["file1"; "lambert1"; "sg1"] "sg1") as [_ Htextures].
  { vm_compute. reflexivity. }
  destruct Htextures as (textures & Hfound & Hnodup & Hreach).
  - apply host_closed_universe, closed_universeb_sound.
    vm_compute. reflexivity.
  - apply list_elem_of_In. simpl. tauto.
  - assert (textures = ["file1"]) as ->.
    { specialize (Hfound 8%nat). vm_compute in Hfound.
      specialize (Hfound (le_n 8)). by injection Hfound as <-. }
    split; [vm_compute; reflexivity|]. split; [exact Hnodup|exact Hreach].
Defined.

(** ** The shading network *)

Lemma network_add_lookup host (network : gmap string (list string)) node t :
  network_add host network node !! t
  = if decide (nodeType host node = t)
    then Some (default [] (network !! t) ++ [node])
    else network !! t.
Proof.
  unfold network_add. destruct (decide (nodeType host node = t)) as [<-|Hne].
  - rewrite lookup_alter_eq.
    destruct (network !! nodeType host node) as [nodes|] eqn:Hl.
    + by rewrite Hl.
    + by rewrite lookup_insert_eq.
  - rewrite lookup_alter_ne by done.
    destruct (network !! nodeType host node); [done|].
    by rewrite lookup_insert_ne.
Qed.

Lemma network_fold_lookup host (records : list (string * Z))
    (network : gmap string (list string)) t :
  fold_left (λ network record, network_add host network (fst record))
    records network !! t
  = match network !! t, filter (λ n, nodeType host n = t) records.*1 with
    | Some nodes, more => Some (nodes ++ more)
    | None, [] => None
    | None, more => Some more
    end.
Proof.
  revert network. induction records as [|[node depth] records IH];
    intros network; simpl.
  - destruct (network !! t); by rewrite ?app_nil_r.
  - rewrite IH, network_add_lookup, filter_cons. simpl.
    destruct (decide (nodeType host node = t)); [|done].
    destruct (network !! t); simpl; [by rewrite <- app_assoc|done].
Qed.

(** X7: [get_shading_network] buckets the upstream traversal (ceiling
    20, no filter) by node type: the entry of a type is the list of the
    yielded nodes of that type in traversal order, and a type with no
    yielded node has no entry, so no bucket is empty and every yielded
    node is in the bucket of its own type. *)
Theorem shading_network_buckets host fuel shader network :
  get_shading_network host fuel shader = Some network →
  ∃ log records,
    traverse_graph host fuel shader UPSTREAM 20 None = Some (log, records)
    ∧ (∀ t, network !! t
            = match filter (λ n, nodeType host n = t) records.*1 with
              | [] => None
              | nodes => Some nodes
              end)
    ∧ (∀ t nodes, network !! t = Some nodes → nodes ≠ [])
    ∧ (∀ n, n ∈ records.*1
            ↔ ∃ nodes, network !! nodeType host n = Some nodes ∧ n ∈ nodes).
Proof.
  unfold get_shading_network.
  destruct (traverse_graph host fuel shader UPSTREAM 20 None)
    as [[log records]|]; [|done].
  intros [= <-]. exists log, records. split; [done|].
  assert (∀ t,
    fold_left (λ network record, network_add host network (fst record))
      records ∅ !! t
    = match filter (λ n, nodeType host n = t) records.*1 with
      | [] => None
      | nodes => Some nodes
      end) as Hlookup.
  { intros t. rewrite network_fold_lookup, lookup_empty. done. }
  split; [done|]. split.
  - intros t nodes. rewrite Hlookup.
    destruct (filter _ _); [done|]. by intros [= <-].
  - intros n. rewrite Hlookup. split.
    + intros Hn.
      assert (n ∈ filter (λ n', nodeType host n' = nodeType host n) records.*1)
        as Hin by (by apply list_elem_of_filter).
      destruct (filter _ _) as [|x l] eqn:Hf;
        [by apply not_elem_of_nil in Hin|].
      by exists (x :: l).
    + intros (nodes & Hnodes & Hin).
      destruct (filter _ _) as [|x l] eqn:Hf; [done|]. simplify_eq.
      rewrite <- Hf in Hin. by apply list_elem_of_filter in Hin as [_ ?].
Qed.

Lemma shading_network_buckets_witness :
  ∃ log records,
    traverse_graph (Scene.host shader_scene) 6 "sg1" UPSTREAM 20 None
    = Some (log, records)
    ∧ (∀ t, ({[ "shadingEngine" := ["sg1"]; "lambert" := ["lambert1"];
                "file" := ["file1"] ]} : gmap string (list string)) !! t
            = match filter (λ n, nodeType (Scene.host shader_scene) n = t)
                      records.*1 with
              | [] => None
              | nodes => Some nodes
              end)
    ∧ (∀ t nodes,
         ({[ "shadingEngine" := ["sg1"]; "lambert" := ["lambert1"];
             "file" := ["file1"] ]} : gmap string (list string)) !! t
         = Some nodes → nodes ≠ [])
    ∧ (∀ n, n ∈ records.*1
            ↔ ∃ nodes,
                ({[ "shadingEngine" := ["sg1"]; "lambert" := ["lambert1"];
                    "file" := ["file1"] ]} : gmap string (list string))
                !! nodeType (Scene.host shader_scene) n = Some nodes
                ∧ n ∈ nodes).
Proof.
  apply (shading_network_buckets (Scene.host shader_scene) 6 "sg1").
  vm_compute. reflexivity.
Defined.



(** ** The printed tree *)

(** The depth of every record: not negative, and within a non-negative
    ceiling. *)
Lemma traverse_layer_bounds
    host fuel start direction max_depth node_filter log out i r :
  traverse_graph host fuel start direction max_depth node_filter
  = Some (log, out) →
  out !! i = Some r →
  0 ≤ r.2 ∧ (0 ≤ max_depth → r.2 ≤ max_depth).
Proof.
  intros Htr Hi. destruct (objExists host start) eqn:Hex.
  - destruct (traverse_run _ _ _ _ _ _ _ _ Hex Htr) as [_ Hrun]. split.
    + apply (depths_ascend_floor _ out); [|by eapply list_elem_of_lookup_2].
      eapply run_ascends; [exact Hrun|apply layered_initial].
    + intros Hmax. apply run_depth in Hrun. rewrite Forall_forall in Hrun.
      apply too_deep_false_le; [done|]. apply Hrun.
      by eapply list_elem_of_lookup_2.
  - unfold traverse_graph in Htr. rewrite Hex in Htr. by simplify_eq.
Qed.


Lemma string_length_app (s1 s2 : string) :
  String.length (s1 +:+ s2) = (String.length s1 + String.length s2)%nat.
Proof. induction s1 as [|c s1 IH]; simpl; [done|]. by rewrite IH. Qed.

Lemma py_str_mul_length s n :
  String.length (py_str_mul s n) = (Z.to_nat n * String.length s)%nat.
Proof.
  unfold py_str_mul. induction (Z.to_nat n) as [|k IH]; simpl; [done|].
  by rewrite string_length_app, IH.
Qed.

Lemma printed_loop host (records : list (string * Z)) (printed : list string) :
  fold_left (λ printed record, printed ++ [tree_line host record])
    records printed
  = printed ++ (tree_line host <$> records).
Proof.
  revert printed. induction records as [|r records IH]; intros printed; simpl.
  - by rewrite app_nil_r.
  - by rewrite IH, <- app_assoc.
Qed.

(** X9: [print_node_tree] prints one line per record of the unfiltered
    traversal, in order.  The line of a record at depth [d] is indented
    by exactly [2 * d] spaces (depths are never negative), followed by
    the branch mark, the node and its type; with a non-negative
    [max_depth] no line is indented by more than [2 * max_depth]. *)
Theorem tree_lines_follow_records
    host fuel start direction max_depth lines :
  print_node_tree host fuel start direction max_depth = Some lines →
  ∃ log records,
    traverse_graph host fuel start direction max_depth None
    = Some (log, records)
    ∧ length lines = length records
    ∧ ∀ i node depth,
        records !! i = Some (node, depth) →
        ∃ indent,
          lines !! i
          = Some (indent +:+ "├── " +:+ node +:+ " (" +:+ nodeType host node
                  +:+ ")")
          ∧ indent = py_str_mul "  " depth
          ∧ Z.of_nat (String.length indent) = 2 * depth
          ∧ (0 ≤ max_depth → Z.of_nat (String.length indent) ≤ 2 * max_depth).
Proof.
  unfold print_node_tree.
  destruct (traverse_graph host fuel start direction max_depth None)
    as [[log records]|] eqn:Htr; [|done].
  rewrite printed_loop. simpl. intros [= <-]. exists log, records.
  split; [done|]. split; [by rewrite length_fmap|].
  intros i node depth Hi. exists (py_str_mul "  " depth).
  split; [by rewrite list_lookup_fmap, Hi|]. split; [done|].
  assert (0 ≤ depth) as Hpos.
  { destruct (traverse_layer_bounds host fuel start direction max_depth None
                log records i (node, depth) Htr Hi) as [? _]. done. }
  assert (0 ≤ max_depth → depth ≤ max_depth) as Hceil.
  { destruct (traverse_layer_bounds host fuel start direction max_depth None
                log records i (node, depth) Htr Hi) as [_ ?]. done. }
  rewrite py_str_mul_length. simpl. split; [lia|].
  intros Hmax. specialize (Hceil Hmax). lia.
Qed.

Lemma tree_lines_follow_records_witness :
  ∃ log records,
    traverse_graph (Scene.host cycle_scene) 4 "A" DOWNSTREAM 1 None
    = Some (log, records)
    ∧ length ["├── A (lambert)"; "  ├── B (file)"] = length records
    ∧ ∀ i node depth,
        records !! i = Some (node, depth) →
        ∃ indent,
          ["├── A (lambert)"; "  ├── B (file)"] !! i
          = Some (indent +:+ "├── " +:+ node +:+ " ("
                  +:+ nodeType (Scene.host cycle_scene) node +:+ ")")
          ∧ indent = py_str_mul "  " depth
          ∧ Z.of_nat (String.length indent) = 2 * depth
          ∧ (0 ≤ 1 → Z.of_nat (String.length indent) ≤ 2 * 1).
Proof.
  apply (tree_lines_follow_records (Scene.host cycle_scene) 4 "A" DOWNSTREAM 1).
  vm_compute. reflexivity.
Defined.

(** ** A missing start node in the queries *)

(** X10: when the start node does not exist, the queries built on the
    traversal return empty results and raise nothing: the typed search
    and the texture search return the empty list, the shading network
    is the empty dictionary, and the tree prints no line. *)
Theorem missing_start_empties_queries
    host fuel start target_type direction max_depth :
  objExists host start = false →
  find_connected_nodes_by_type host fuel start target_type direction = Some []
  ∧ find_texture_nodes host fuel start = Some []
  ∧ get_shading_network host fuel start = Some ∅
  ∧ print_node_tree host fuel start direction max_depth = Some [].
Proof.
  intros Hex.
  assert (∀ direction max_depth node_filter,
    traverse_graph host fuel start direction max_depth node_filter
    = Some ([(LOG_ERROR, "Start node does not exist: " +:+ start)], []))
    as Htr.
  { intros. unfold traverse_graph. by rewrite Hex. }
  unfold find_texture_nodes, find_connected_nodes_by_type,
    get_shading_network, print_node_tree.
  by rewrite !Htr.
Qed.

Lemma missing_start_empties_queries_witness :
  find_connected_nodes_by_type (Scene.host shader_scene) 0 "phong1" "file"
    UPSTREAM = Some []
  ∧ find_texture_nodes (Scene.host shader_scene) 0 "phong1" = Some []
  ∧ get_shading_network (Scene.host shader_scene) 0 "phong1" = Some ∅
  ∧ print_node_tree (Scene.host shader_scene) 0 "phong1" BOTH 5 = Some [].
Proof.
  apply (missing_start_empties_queries (Scene.host shader_scene) 0 "phong1"
           "file" BOTH 5).
  vm_compute. reflexivity.
Defined.

(** ** Plugs and connection records *)

Lemma list_pair_ind {A} (P : list A → Prop) :
  P [] → (∀ x, P [x]) → (∀ x y l, P l → P (x :: y :: l)) → ∀ l, P l.
Proof.
  intros Hnil Hone Hpair.
  assert (∀ l, P l ∧ ∀ x, P (x :: l)) as Hboth.
  { induction l as [|y l [IH1 IH2]]; [by split|].
    split; [apply IH2|]. intros x. by apply Hpair. }
  intros l. apply Hboth.
Qed.

Lemma split_dot_join plug a b :
  split_dot plug = Some (a, b) → plug = a +:+ "." +:+ b ∧ has_dot a = false.
Proof.
  revert a. induction plug as [|c plug IH]; intros a; simpl; [done|].
  destruct (Ascii.eqb c ".") eqn:Hc.
  - intros [= <- <-]. apply Ascii.eqb_eq in Hc as ->. done.
  - destruct (split_dot plug) as [[a' b']|]; [|done]. intros [= <- <-].
    destruct (IH a' eq_refl) as [-> Ha']. simpl. by rewrite Hc.
Qed.

Lemma split_dot_of_join a b :
  has_dot a = false → split_dot (a +:+ "." +:+ b) = Some (a, b).
Proof.
  induction a as [|c a IH]; simpl; [done|].
  intros [Hc Ha]%orb_false_iff. by rewrite Hc, IH.
Qed.

Lemma split_dot_none plug : split_dot plug = None ↔ has_dot plug = false.
Proof.
  induction plug as [|c plug IH]; simpl; [done|].
  destruct (Ascii.eqb c "."); simpl; [done|].
  rewrite <- IH. by destruct (split_dot plug) as [[? ?]|].
Qed.

(** X11: [plug.split(".", 1)] cuts a plug at its first dot and loses
    nothing: it gives [(a, b)] exactly when the plug is [a.b] with no
    dot in [a], and it gives no pair (the unpacking raises) exactly
    when the plug has no dot. *)
Theorem split_dot_round_trip plug :
  (∀ a b, split_dot plug = Some (a, b)
          ↔ plug = a +:+ "." +:+ b ∧ has_dot a = false)
  ∧ (unpack_plug plug = Raise ValueError ↔ has_dot plug = false).
Proof.
  split.
  - intros a b. split; [apply split_dot_join|].
    intros [-> Ha]. by apply split_dot_of_join.
  - unfold unpack_plug. rewrite <- split_dot_none.
    by destruct (split_dot plug).
Qed.

Lemma connections_loop_shape node plugs :
  ∀ connections,
    (Nat.even (length plugs) = true →
       (Forall (λ p, has_dot p = true) plugs →
          ∃ records,
            connections_loop node plugs connections
            = Ok (connections ++ records)
            ∧ length plugs = (2 * length records)%nat)
       ∧ (¬ Forall (λ p, has_dot p = true) plugs →
            connections_loop node plugs connections = Raise ValueError))
    ∧ (Nat.even (length plugs) = false →
         (∀ records, connections_loop node plugs connections ≠ Ok records)
         ∧ (Forall (λ p, has_dot p = true) plugs →
              connections_loop node plugs connections = Raise IndexError)).
Proof.
  induction plugs as [|plug|plug_a plug_b plugs IH] using list_pair_ind;
    intros connections.
  - split; [|done]. intros _. split.
    + intros _. exists []. by rewrite app_nil_r.
    + intros Hnot. destruct Hnot. constructor.
  - split; [done|]. intros _. by split.
  - change (Nat.even (length (plug_a :: plug_b :: plugs)))
      with (Nat.even (length plugs)).
    simpl connections_loop. unfold unpack_plug.
    destruct (split_dot plug_a) as [[node_a attr_a]|] eqn:Ha; simpl.
    2: { apply split_dot_none in Ha.
         split; intros _; (split; [|done]) || (split; [done|]);
           rewrite !Forall_cons; intros (? & ? & ?); congruence. }
    destruct (split_dot plug_b) as [[node_b attr_b]|] eqn:Hb; simpl.
    2: { apply split_dot_none in Hb.
         split; intros _; (split; [|done]) || (split; [done|]);
           rewrite !Forall_cons; intros (? & ? & ?); congruence. }
    assert (Forall (λ p, has_dot p = true) (plug_a :: plug_b :: plugs)
            ↔ Forall (λ p, has_dot p = true) plugs) as Hall.
    { rewrite !Forall_cons. split; [by intros (_ & _ & ?)|]. intros Hrest.
      split; [|split; [|done]].
      - destruct (has_dot plug_a) eqn:Hd; [done|].
        apply split_dot_none in Hd. congruence.
      - destruct (has_dot plug_b) eqn:Hd; [done|].
        apply split_dot_none in Hd. congruence. }
    rewrite Hall.
    enough (∀ r,
      (Nat.even (length plugs) = true →
         (Forall (λ p, has_dot p = true) plugs →
            ∃ records,
              connections_loop node plugs (connections ++ [r])
              = Ok (connections ++ records)
              ∧ length (plug_a :: plug_b :: plugs) = (2 * length records)%nat)
         ∧ (¬ Forall (λ p, has_dot p = true) plugs →
              connections_loop node plugs (connections ++ [r])
              = Raise ValueError))
      ∧ (Nat.even (length plugs) = false →
           (∀ records,
              connections_loop node plugs (connections ++ [r]) ≠ Ok records)
           ∧ (Forall (λ p, has_dot p = true) plugs →
                connections_loop node plugs (connections ++ [r])
                = Raise IndexError))) as Hfin.
    { destruct (String.eqb node_a node); apply Hfin. }
    intros r. destruct (IH (connections ++ [r])) as [Heven Hodd].
    split; [|done]. intros He. destruct (Heven He) as [Hok Hbad].
    split; [|done]. intros Hdots.
    destruct (Hok Hdots) as (records & -> & Hlen).
    exists (r :: records). rewrite <- app_assoc. split; [done|].
    simpl. lia.
Qed.

(** X12: on a list of plugs of even length [get_all_connections]
    returns one record per pair when every plug holds a dot, and raises
    [ValueError] otherwise; on a list of odd length it never returns,
    raising [IndexError] when every plug holds a dot. *)
Theorem connections_one_per_pair host node plugs :
  objExists host node = true →
  or_empty (listConnections_plugs host node) = plugs →
  (Nat.even (length plugs) = true →
     (Forall (λ p, has_dot p = true) plugs →
        ∃ records,
          get_all_connections host node = Ok records
          ∧ length plugs = (2 * length records)%nat)
     ∧ (¬ Forall (λ p, has_dot p = true) plugs →
          get_all_connections host node = Raise ValueError))
  ∧ (Nat.even (length plugs) = false →
       (∀ records, get_all_connections host node ≠ Ok records)
       ∧ (Forall (λ p, has_dot p = true) plugs →
            get_all_connections host node = Raise IndexError)).
Proof.
  intros Hex Hplugs. unfold get_all_connections. rewrite Hex, Hplugs.
  destruct (connections_loop_shape node plugs []) as [Heven Hodd].
  split; [|done]. intros He. destruct (Heven He) as [Hok Hbad].
  split; [|done]. intros Hdots.
  destruct (Hok Hdots) as (records & Hloop & Hlen). by exists records.
Qed.

Lemma connections_one_per_pair_witness :
  ∃ records,
    get_all_connections (Scene.host link_scene) "ramp1" = Ok records
    ∧ length ["ramp1.outColor"; "blinn1.color"] = (2 * length records)%nat.
Proof.
  apply (connections_one_per_pair (Scene.host link_scene) "ramp1"
           ["ramp1.outColor"; "blinn1.color"]).
  - vm_compute. reflexivity.
  - vm_compute. reflexivity.
  - vm_compute. reflexivity.
  - repeat constructor.
Defined.

Lemma connections_loop_pairs node plugs :
  ∀ connections records,
    connections_loop node plugs connections = Ok records →
    ∃ new,
      records = connections ++ new
      ∧ ∀ i r, new !! i = Some r →
          ∃ node_a attr_a node_b attr_b,
            plugs !! (2 * i)%nat = Some (node_a +:+ "." +:+ attr_a)
            ∧ plugs !! (2 * i + 1)%nat = Some (node_b +:+ "." +:+ attr_b)
            ∧ has_dot node_a = false ∧ has_dot node_b = false
            ∧ r = if String.eqb node_a node
                  then mkConnectionInfo node_b attr_b node_a attr_a
                  else mkConnectionInfo node_a attr_a node_b attr_b.
Proof.
  induction plugs as [|plug|plug_a plug_b plugs IH] using list_pair_ind;
    intros connections records; simpl.
  - intros [= <-]. exists []. by rewrite app_nil_r.
  - done.
  - unfold unpack_plug.
    destruct (split_dot plug_a) as [[node_a attr_a]|] eqn:Ha; simpl; [|done].
    destruct (split_dot plug_b) as [[node_b attr_b]|] eqn:Hb; simpl; [|done].
    apply split_dot_join in Ha as [-> Ha]. apply split_dot_join in Hb as [-> Hb].
    intros Hloop.
    assert (∃ r,
      connections_loop node plugs (connections ++ [r]) = Ok records
      ∧ r = if String.eqb node_a node
            then mkConnectionInfo node_b attr_b node_a attr_a
            else mkConnectionInfo node_a attr_a node_b attr_b)
      as (r & Hr & Hrdef).
    { destruct (String.eqb node_a node); by eexists. }
    destruct (IH _ _ Hr) as (new & -> & Hnew).
    exists (r :: new). rewrite <- app_assoc. split; [done|].
    intros [|i] r' Hi; simpl in Hi.
    + simplify_eq. by exists node_a, attr_a, node_b, attr_b.
    + destruct (Hnew i r' Hi) as (na & aa & nb & ab & H1 & H2 & ? & ? & ?).
      exists na, aa, nb, ab.
      replace (S i + (S i + 0))%nat with (S (S (2 * i))) by lia.
      replace (S (S (2 * i)) + 1)%nat with (S (S (2 * i + 1))) by lia.
      split; [exact H1|]. split; [exact H2|done].
Qed.

(** X13: the [i]-th record [get_all_connections] returns is built from
    the [i]-th pair of plugs the host lists, and joins back to it: its
    two ends are the node and attribute of plug [2i] and of plug
    [2i + 1], the first plug as destination when its node is the
    queried node and as source otherwise. *)
Theorem record_joins_listed_pair host node records i r :
  get_all_connections host node = Ok records →
  records !! i = Some r →
  ∃ node_a attr_a node_b attr_b,
    or_empty (listConnections_plugs host node) !! (2 * i)%nat
    = Some (node_a +:+ "." +:+ attr_a)
    ∧ or_empty (listConnections_plugs host node) !! (2 * i + 1)%nat
      = Some (node_b +:+ "." +:+ attr_b)
    ∧ has_dot node_a = false ∧ has_dot node_b = false
    ∧ r = if String.eqb node_a node
          then mkConnectionInfo node_b attr_b node_a attr_a
          else mkConnectionInfo node_a attr_a node_b attr_b.
Proof.
  unfold get_all_connections. destruct (objExists host node).
  - intros Hloop Hi.
    destruct (connections_loop_pairs _ _ _ _ Hloop) as (new & -> & Hnew).
    by apply Hnew.
  - by intros [= <-].
Qed.

Lemma record_joins_listed_pair_witness :
  ∃ node_a attr_a node_b attr_b,
    or_empty (listConnections_plugs (Scene.host shader_scene) "lambert1")
      !! (2 * 2)%nat
    = Some (node_a +:+ "." +:+ attr_a)
    ∧ or_empty (listConnections_plugs (Scene.host shader_scene) "lambert1")
        !! (2 * 2 + 1)%nat
      = Some (node_b +:+ "." +:+ attr_b)
    ∧ has_dot node_a = false ∧ has_dot node_b = false
    ∧ mkConnectionInfo "sg1" "surfaceShader" "lambert1" "outColor"
      = if String.eqb node_a "lambert1"
        then mkConnectionInfo node_b attr_b node_a attr_a
        else mkConnectionInfo node_a attr_a node_b attr_b.
Proof.
  apply (record_joins_listed_pair (Scene.host shader_scene) "lambert1"
           [mkConnectionInfo "file1" "outColor" "lambert1" "color";
            mkConnectionInfo "file1" "outTransparency" "lambert1"
              "transparency";
            mkConnectionInfo "sg1" "surfaceShader" "lambert1" "outColor"]).
  - vm_compute. reflexivity.
  - reflexivity.
Defined.

(** ** Node information *)

Lemma rsplit_colon_join s a b :
  rsplit_colon s = Some (a, b) → s = a +:+ ":" +:+ b ∧ has_colon b = false.
Proof.
  revert a. induction s as [|c s IH]; intros a; simpl; [done|].
  destruct (rsplit_colon s) as [[a' b']|] eqn:Hs.
  - intros [= <- <-]. destruct (IH a' eq_refl) as [-> Hb]. done.
  - destruct (Ascii.eqb c ":") eqn:Hc; [|done]. intros [= <- <-].
    apply Ascii.eqb_eq in Hc as ->. split; [done|].
    clear IH. induction s as [|c s IH]; simpl in *; [done|].
    destruct (rsplit_colon s) as [[? ?]|]; [done|].
    destruct (Ascii.eqb c ":"); [done|]. simpl. by apply IH.
Qed.

Lemma rsplit_colon_some s : has_colon s = true → is_Some (rsplit_colon s).
Proof.
  induction s as [|c s IH]; simpl; [done|].
  destruct (rsplit_colon s) as [[a b]|]; [by eexists|].
  destruct (Ascii.eqb c ":"); simpl; [by eexists|]. intros Hs.
  by destruct (IH Hs).
Qed.

(** X14: [get_node_info] answers [None] with one warning for a node
    that does not exist.  For an existing node it logs nothing and the
    record names the node and its type; the namespace is empty when the
    name has no colon, and otherwise it is the part of the name before
    its last colon; both connection lists are free of duplicates and
    hold exactly the nodes the host lists. *)
Theorem node_info_fields host referenceQuery node :
  (objExists host node = false →
     get_node_info host referenceQuery node
     = ([(LOG_WARNING, "Node does not exist: " +:+ node)], None))
  ∧ (objExists host node = true →
     ∃ info,
       get_node_info host referenceQuery node = ([], Some info)
       ∧ name info = node ∧ node_type info = nodeType host node
       ∧ is_referenced info = referenceQuery node
       ∧ (has_colon node = false → namespace info = EmptyString)
       ∧ (has_colon node = true →
          ∃ short, node = namespace info +:+ ":" +:+ short
                   ∧ has_colon short = false)
       ∧ NoDup (connections_in info) ∧ NoDup (connections_out info)
       ∧ (∀ n, n ∈ connections_in info
               ↔ n ∈ or_empty (listConnections host node true false))
       ∧ (∀ n, n ∈ connections_out info
               ↔ n ∈ or_empty (listConnections host node false true))).
Proof.
  unfold get_node_info. split; intros ->; [done|].
  eexists. split; [done|]. simpl. unfold list_set.
  repeat split; try done.
  - by intros ->.
  - intros Hcolon. rewrite Hcolon. unfold rsplit_colon_0.
    destruct (rsplit_colon_some node Hcolon) as [[a b] Hsplit].
    rewrite Hsplit. exists b. by apply rsplit_colon_join.
  - apply NoDup_elements.
  - apply NoDup_elements.
  - by rewrite elem_of_elements, elem_of_list_to_set.
  - by rewrite elem_of_elements, elem_of_list_to_set.
  - by rewrite elem_of_elements, elem_of_list_to_set.
  - by rewrite elem_of_elements, elem_of_list_to_set.
Qed.

Lemma node_info_fields_witness :
  ∃ info,
    get_node_info mesh_host (λ _, false) "char:rig:arm" = ([], Some info)
    ∧ name info = "char:rig:arm"
    ∧ node_type info = nodeType mesh_host "char:rig:arm"
    ∧ is_referenced info = false
    ∧ (has_colon "char:rig:arm" = false → namespace info = EmptyString)
    ∧ (has_colon "char:rig:arm" = true →
       ∃ short, "char:rig:arm" = namespace info +:+ ":" +:+ short
                ∧ has_colon short = false)
    ∧ NoDup (connections_in info) ∧ NoDup (connections_out info)
    ∧ (∀ n, n ∈ connections_in info
            ↔ n ∈ or_empty (listConnections mesh_host "char:rig:arm"
                              true false))
    ∧ (∀ n, n ∈ connections_out info
            ↔ n ∈ or_empty (listConnections mesh_host "char:rig:arm"
                              false true)).
Proof.
  apply (node_info_fields mesh_host (λ _, false) "char:rig:arm").
  vm_compute. reflexivity.
Defined.

(** The namespace of a nested name is everything before the last colon. *)
Example namespace_of_nested_name :
  rsplit_colon_0 "char:rig:arm" = "char:rig"
  ∧ rsplit_colon_0 "arm" = "arm" ∧ has_colon "arm" = false.
Proof. repeat split; vm_compute; reflexivity. Qed.

(** ** Shaders of a mesh *)

Lemma fold_extend_elem {A B} (f : B → list A) (l : list B) (acc : list A) x :
  x ∈ fold_left (λ acc b, acc ++ f b) l acc
  ↔ x ∈ acc ∨ ∃ b, b ∈ l ∧ x ∈ f b.
Proof.
  revert acc. induction l as [|b l IH]; intros acc; simpl.
  - split; [by left|]. intros [?|(b & Hb & _)]; [done|].
    by apply not_elem_of_nil in Hb.
  - rewrite IH, elem_of_app. split.
    + intros [[?|?]|(b' & Hb' & ?)]; [by left|right..].
      * exists b. split; [by left|done].
      * exists b'. split; [by right|done].
    + intros [?|(b' & [->|Hb']%elem_of_cons & ?)].
      * left. by left.
      * left. by right.
      * right. by exists b'.
Qed.

(** X15: [get_mesh_shaders] returns, without duplicates, exactly the
    nodes connected to the [surfaceShader] plug of a shading engine
    connected to a shape of the mesh; a mesh without shapes has no
    shaders. *)
Theorem mesh_shaders_members host listRelatives_shapes listConnections_type
    mesh :
  NoDup (get_mesh_shaders host listRelatives_shapes listConnections_type mesh)
  ∧ (∀ shader,
       shader ∈ get_mesh_shaders host listRelatives_shapes
                  listConnections_type mesh
       ↔ ∃ shape sg,
           shape ∈ or_empty (listRelatives_shapes mesh)
           ∧ sg ∈ or_empty (listConnections_type shape "shadingEngine")
           ∧ shader ∈ or_empty (listConnections host (sg +:+ ".surfaceShader")
                                  true true))
  ∧ (listRelatives_shapes mesh = None →
     get_mesh_shaders host listRelatives_shapes listConnections_type mesh
     = []).
Proof.
  unfold get_mesh_shaders, list_set. split; [apply NoDup_elements|]. split.
  - intros shader. rewrite elem_of_elements, elem_of_list_to_set.
    generalize (or_empty (listRelatives_shapes mesh)). intros shapes.
    enough (∀ acc,
      shader ∈ fold_left
        (λ shaders shape,
           fold_left
             (λ shaders sg,
                shaders ++ or_empty (listConnections host
                                       (sg +:+ ".surfaceShader") true true))
             (or_empty (listConnections_type shape "shadingEngine")) shaders)
        shapes acc
      ↔ shader ∈ acc
        ∨ ∃ shape sg,
            shape ∈ shapes
            ∧ sg ∈ or_empty (listConnections_type shape "shadingEngine")
            ∧ shader ∈ or_empty (listConnections host
                                   (sg +:+ ".surfaceShader") true true))
      as Hfold.
    { rewrite Hfold. split; [|by right].
      intros [Hin|?]; [by apply not_elem_of_nil in Hin|done]. }
    induction shapes as [|shape shapes IH]; intros acc; simpl.
    + split; [by left|]. intros [?|(? & ? & Hin & _)]; [done|].
      by apply not_elem_of_nil in Hin.
    + rewrite IH, fold_extend_elem. split.
      * intros [[?|(sg & ? & ?)]|(shape' & sg & ? & ? & ?)]; [by left|right..].
        -- exists shape, sg. split; [by left|done].
        -- exists shape', sg. split; [by right|done].
      * intros [?|(shape' & sg & [->|?]%elem_of_cons & ? & ?)].
        -- left. by left.
        -- left. right. by exists sg.
        -- right. by exists shape', sg.
  - by intros ->.
Qed.

Lemma mesh_shaders_members_witness :
  get_mesh_shaders mesh_host mesh_shapes mesh_engines "pSphere1" = [].
Proof.
  apply (mesh_shaders_members mesh_host mesh_shapes mesh_engines "pSphere1").
  vm_compute. reflexivity.
Defined.

(** Two shapes that share a shader: the shader is listed once. *)
Example cube_shaders :
  length (get_mesh_shaders mesh_host mesh_shapes mesh_engines "pCube1")
  = 2%nat
  ∧ "lambert1" ∈ get_mesh_shaders mesh_host mesh_shapes mesh_engines "pCube1".
Proof.
  split; [vm_compute; reflexivity|].
  apply list_elem_of_In. vm_compute. tauto.
Qed.

(** ** Comparing traversals *)

Lemma next_nodes_both host n :
  Traverse.next_nodes host BOTH n
  = Traverse.next_nodes host UPSTREAM n ++ Traverse.next_nodes host DOWNSTREAM n.
Proof. unfold Traverse.next_nodes. simpl. by rewrite app_nil_r. Qed.

(** X16: with no filter and no depth ceiling, direction [BOTH] yields
    every node that [UPSTREAM] yields and every node that [DOWNSTREAM]
    yields from the same start node. *)
Theorem both_covers_each_direction
    host fuel fuel' start direction log out log' out' n :
  traverse_graph host fuel start direction (-1) None = Some (log, out) →
  traverse_graph host fuel' start BOTH (-1) None = Some (log', out') →
  n ∈ out.*1 → n ∈ out'.*1.
Proof.
  intros Htr Htr' (r & -> & Hr)%list_elem_of_fmap.
  destruct (objExists host start) eqn:Hex.
  - apply traverse_sound in Htr. rewrite Forall_forall in Htr.
    destruct (Htr r Hr) as [Hpath _].
    destruct (traverse_run _ _ _ _ _ _ _ _ Hex Htr') as [_ Hrun'].
    eapply (run_complete host BOTH (-1) ltac:(lia) _ _ _ Hrun' start);
      [set_solver|].
    apply reachable_fresh. eapply rtc_subrel; [|exact Hpath].
    intros a b [_ Hab]. unfold edge in *. rewrite next_nodes_both.
    unfold Traverse.next_nodes in Hab. destruct direction; simpl in Hab.
    + rewrite app_nil_r in Hab. apply elem_of_app. left.
      unfold Traverse.next_nodes. simpl. by rewrite app_nil_r.
    + apply elem_of_app. right. done.
    + rewrite <- next_nodes_both. done.
  - unfold traverse_graph in Htr. rewrite Hex in Htr. simplify_eq.
    by apply not_elem_of_nil in Hr.
Qed.

Lemma both_covers_each_direction_witness :
  "C" ∈ [("A", 0); ("C", 1); ("B", 1)].*1.
Proof.
  apply (both_covers_each_direction (Scene.host cycle_scene) 4 10 "A"
           DOWNSTREAM [] [("A", 0); ("B", 1); ("C", 2)] []
           [("A", 0); ("C", 1); ("B", 1)] "C").
  - vm_compute. reflexivity.
  - vm_compute. reflexivity.
  - apply list_elem_of_In. simpl. tauto.
Defined.

Lemma open_walk_wider host direction node_filter node_filter' start k n :
  (∀ a, Traverse.filtered_out host node_filter a = false →
        Traverse.filtered_out host node_filter' a = false) →
  open_walk host direction node_filter start k n →
  open_walk host direction node_filter' start k n.
Proof.
  intros Hwider. induction 1 as [|k m n _ IH [Hm Hedge]]; [constructor|].
  eapply walk_step; [exact IH|]. split; [by apply Hwider|done].
Qed.

Lemma wider_filter_run
    host fuel fuel' start direction max_depth node_filter node_filter'
    log out log' out' n d :
  (∀ a, Traverse.filtered_out host node_filter a = false →
        Traverse.filtered_out host node_filter' a = false) →
  traverse_graph host fuel start direction max_depth node_filter
  = Some (log, out) →
  traverse_graph host fuel' start direction max_depth node_filter'
  = Some (log', out') →
  (n, d) ∈ out → ∃ d', d' ≤ d ∧ (n, d') ∈ out'.
Proof.
  intros Hwider Htr Htr' Hin. destruct (objExists host start) eqn:Hex.
  - destruct (traverse_run _ _ _ _ _ _ _ _ Hex Htr) as [_ Hrun].
    destruct (traverse_run _ _ _ _ _ _ _ _ Hex Htr') as [_ Hrun'].
    eapply run_walks in Hrun.
    2: { intros q d0 [= -> ->]%list_elem_of_singleton. exists O.
         split; [done|constructor]. }
    rewrite Forall_forall in Hrun.
    destruct (Hrun _ Hin) as (k & Hk & Hwalk & Hf & Hd). simpl in *. subst d.
    eapply walk_is_yielded; [exact Hrun'| |by apply Hwider|done].
    by eapply open_walk_wider.
  - unfold traverse_graph in Htr. rewrite Hex in Htr. simplify_eq.
    by apply not_elem_of_nil in Hin.
Qed.

(** X17: widening the type filter never loses a node and never pushes
    one deeper: what is yielded under a non-empty filter is yielded, no
    deeper, under every larger filter and under no filter. *)
Theorem wider_filter_keeps_nodes
    host fuel fuel' start direction max_depth types node_filter'
    log out log' out' n d :
  types ≠ ∅ →
  node_filter' = None ∨ (∃ types', node_filter' = Some types' ∧ types ⊆ types') →
  traverse_graph host fuel start direction max_depth (Some types)
  = Some (log, out) →
  traverse_graph host fuel' start direction max_depth node_filter'
  = Some (log', out') →
  (n, d) ∈ out → ∃ d', d' ≤ d ∧ (n, d') ∈ out'.
Proof.
  intros Hne Hwider. apply wider_filter_run. intros a Ha.
  destruct Hwider as [->|(types' & -> & Hsub)]; [done|].
  unfold Traverse.filtered_out in *. rewrite decide_False in Ha by done.
  destruct (decide (nodeType host a ∈ types)) as [Hin|]; [|done].
  destruct (decide (types' = ∅)); [done|].
  rewrite decide_True; [done|]. by apply Hsub.
Qed.

Lemma wider_filter_keeps_nodes_witness :
  ∃ d', d' ≤ 0 ∧ ("A", d') ∈ [("A", 0); ("B", 1); ("C", 2)].
Proof.
  apply (wider_filter_keeps_nodes (Scene.host cycle_scene) 4 4 "A" DOWNSTREAM
           (-1) {["lambert"]} None [] [("A", 0)] []).
  - apply non_empty_singleton_L.
  - by left.
  - vm_compute. reflexivity.
  - vm_compute. reflexivity.
  - apply list_elem_of_In. simpl. tauto.
Defined.

(** X18: the typed search reports the start node itself, first, when
    the start node exists and has the target type. *)
Theorem typed_search_starts_with_start
    host fuel start target_type direction found :
  objExists host start = true →
  nodeType host start = target_type →
  find_connected_nodes_by_type host fuel start target_type direction
  = Some found →
  ∃ rest, found = start :: rest.
Proof.
  intros Hex Htype. unfold find_connected_nodes_by_type.
  destruct (traverse_graph host fuel start direction (-1) None)
    as [[log out]|] eqn:Htr; [|done].
  rewrite results_loop_filter. simpl. intros [= <-].
  destruct (traverse_run _ _ _ _ _ _ _ _ Hex Htr) as [_ Hrun].
  destruct fuel as [|fuel]; [done|]. simpl in Hrun.
  rewrite (iteration_yield _ _ _ _ _ start 0 []) in Hrun;
    [|done|set_solver|done..].
  destruct (Traverse.run _ _ _ _ fuel _) as [out'|]; [|done].
  simplify_eq/=. rewrite filter_cons, decide_True by done. by eexists.
Qed.

Lemma typed_search_starts_with_start_witness :
  ∃ rest, ["file1"] = "file1" :: rest.
Proof.
  apply (typed_search_starts_with_start (Scene.host shader_scene) 4 "file1"
           "file" UPSTREAM).
  all: vm_compute; reflexivity.
Defined.
